(** * riscv-processor.h: register cells and processor state

    A shallow embedding of [src/emu/riscv-processor.h].  A register is a
    union of small structs; we model the union's storage as the bytes it
    occupies in host memory and every [r.<view>.val] access as a typed load
    or store at the offset the struct declaration gives to [val].  The host
    byte order ([_BYTE_ORDER]) selects both the struct declarations (the
    [#if] in the header) and the way scalars are laid out in memory. *)

From Stdlib Require Import ZArith List Lia.
From coqutil Require Import Byte Word.LittleEndianList.
From stdpp Require Import base option list.

Local Open Scope Z_scope.

(** ** Host parameters *)

(** The two settings of [_BYTE_ORDER] the header distinguishes. *)
Inductive byte_order := LITTLE_ENDIAN | BIG_ENDIAN.

#[global] Instance byte_order_eq_dec : EqDecision byte_order.
Proof. solve_decision. Defined.

(** ** Scalar types *)

(** Modelled from the spec: the fixed-width typedefs [s8] ... [u64], [f32]
    and [f64] are declared outside this header; their sizes are the ones
    their names and the spec's 8/16/32/64-bit views give.  A floating-point
    scalar is represented by its IEEE 754 bit pattern: the header performs
    no floating-point operation, it only stores and reloads the bits. *)
Inductive ctype := s8 | u8 | s16 | u16 | s32 | u32 | s64 | u64 | f32 | f64.

#[global] Instance ctype_eq_dec : EqDecision ctype.
Proof. solve_decision. Defined.

Definition sizeof (t : ctype) : nat :=
  match t with
  | s8 | u8 => 1
  | s16 | u16 => 2
  | s32 | u32 | f32 => 4
  | s64 | u64 | f64 => 8
  end%nat.

Definition is_signed (t : ctype) : bool :=
  match t with
  | s8 | s16 | s32 | s64 => true
  | _ => false
  end.

Definition bitsof (t : ctype) : Z := 8 * Z.of_nat (sizeof t).

(** Two's complement reading of a [w]-bit pattern [u]. *)
Definition to_signed (w : Z) (u : Z) : Z :=
  if u <? 2 ^ (w - 1) then u else u - 2 ^ w.

(** The value of type [t] whose bit pattern is the [bitsof t]-bit number [u]. *)
Definition of_bits (t : ctype) (u : Z) : Z :=
  if is_signed t then to_signed (bitsof t) u else u.

(** Conversion of an integer to the scalar type [t] (what an assignment
    [field = z] stores): reduction modulo [2 ^ bitsof t]. *)
Definition convert (t : ctype) (z : Z) : Z :=
  of_bits t (z mod 2 ^ bitsof t).

(** ** Host memory *)

Definition host_combine (bo : byte_order) (bs : list byte) : Z :=
  match bo with
  | LITTLE_ENDIAN => le_combine bs
  | BIG_ENDIAN => le_combine (rev bs)
  end.

Definition host_split (bo : byte_order) (n : nat) (z : Z) : list byte :=
  match bo with
  | LITTLE_ENDIAN => le_split n z
  | BIG_ENDIAN => rev (le_split n z)
  end.

(** Load a scalar of type [t] at byte offset [off] of the object [m]. *)
Definition load (bo : byte_order) (t : ctype) (off : nat) (m : list byte) : Z :=
  of_bits t (host_combine bo (take (sizeof t) (drop off m))).

(** Store [z] as a scalar of type [t] at byte offset [off] of [m]. *)
Definition store (bo : byte_order) (t : ctype) (off : nat) (z : Z)
    (m : list byte) : list byte :=
  take off m ++ host_split bo (sizeof t) z ++ drop (off + sizeof t) m.

(** ** Struct declarations *)

(** Every struct of the header has a member [val] and possibly a member
    [pad]; [pad] is sometimes an array. *)
Inductive member := val | pad.

#[global] Instance member_eq_dec : EqDecision member.
Proof. solve_decision. Defined.

Record field := Field { f_type : ctype; f_name : member; f_len : nat }.

(** [t name;] and [t name[n];] *)
Definition scalar (t : ctype) (m : member) : field := Field t m 1.
Definition array (t : ctype) (m : member) (n : nat) : field := Field t m n.

Definition field_size (f : field) : nat := (sizeof (f_type f) * f_len f)%nat.

Definition struct_size (st : list field) : nat :=
  foldr (fun f n => (field_size f + n)%nat) 0%nat st.

(** Offset and declaration of member [m].  All members of one struct of the
    header have the same size, so the compiler inserts no padding of its
    own (see [val_naturally_aligned]). *)
Fixpoint offsetof (m : member) (st : list field) : option (nat * field) :=
  match st with
  | [] => None
  | f :: st' =>
      if decide (f_name f = m) then Some (0%nat, f)
      else '(o, g) ← offsetof m st'; Some ((field_size f + o)%nat, g)
  end.

(** ** The register unions *)

(** The members of the unions [r].  Kept in a module of the union's name so
    that [r.x], [r.hu], ... read as in the source. *)
Module r.
Inductive view := l | lu | x | xu | w | wu | h | hu | b | bu | d | s.
End r.

#[global] Instance view_eq_dec : EqDecision r.view.
Proof. solve_decision. Defined.

Definition all_views : list r.view :=
  [r.l; r.lu; r.x; r.xu; r.w; r.wu; r.h; r.hu; r.b; r.bu; r.d; r.s].

Inductive regtype := ireg_rv32 | ireg_rv64 | freg_fp32 | freg_fp64.

#[global] Instance regtype_eq_dec : EqDecision regtype.
Proof. solve_decision. Defined.

(** [typedef ... ux] of each register struct. *)
Definition reg_ux (k : regtype) : ctype :=
  match k with
  | ireg_rv32 => u32
  | ireg_rv64 => u64
  | freg_fp32 => u32
  | freg_fp64 => u64
  end.

(** [enum { xlen = sizeof(ux) << 3 }] (called [flen] in the [freg] structs). *)
Definition reg_xlen (k : regtype) : Z := Z.shiftl (Z.of_nat (sizeof (reg_ux k))) 3.

(** The struct declared for member [v] of the union of register type [k],
    [None] when the union has no such member. *)
Definition union_r (k : regtype) (bo : byte_order) (v : r.view)
    : option (list field) :=
  match k with
  | ireg_rv32 =>
      match v, bo with
      | r.x, _ => Some [scalar s32 val]
      | r.xu, _ => Some [scalar u32 val]
      | r.w, _ => Some [scalar s32 val]
      | r.wu, _ => Some [scalar u32 val]
      | r.h, LITTLE_ENDIAN => Some [scalar s16 val; array s16 pad 1]
      | r.hu, LITTLE_ENDIAN => Some [scalar u16 val; array u16 pad 1]
      | r.b, LITTLE_ENDIAN => Some [scalar s8 val; array s8 pad 3]
      | r.bu, LITTLE_ENDIAN => Some [scalar u8 val; array u8 pad 3]
      | r.h, BIG_ENDIAN => Some [array s16 pad 1; scalar s16 val]
      | r.hu, BIG_ENDIAN => Some [array u16 pad 1; scalar u16 val]
      | r.b, BIG_ENDIAN => Some [array s8 pad 3; scalar s8 val]
      | r.bu, BIG_ENDIAN => Some [array u8 pad 3; scalar u8 val]
      | _, _ => None
      end
  | ireg_rv64 =>
      match v, bo with
      | r.l, _ => Some [scalar s64 val]
      | r.lu, _ => Some [scalar u64 val]
      | r.x, _ => Some [scalar s64 val]
      | r.xu, _ => Some [scalar u64 val]
      | r.w, LITTLE_ENDIAN => Some [scalar s32 val; scalar s32 pad]
      | r.wu, LITTLE_ENDIAN => Some [scalar u32 val; scalar u32 pad]
      | r.h, LITTLE_ENDIAN => Some [scalar s16 val; array s16 pad 3]
      | r.hu, LITTLE_ENDIAN => Some [scalar u16 val; array u16 pad 3]
      | r.b, LITTLE_ENDIAN => Some [scalar s8 val; array s8 pad 7]
      | r.bu, LITTLE_ENDIAN => Some [scalar u8 val; array u8 pad 7]
      | r.w, BIG_ENDIAN => Some [scalar s32 pad; scalar s32 val]
      | r.wu, BIG_ENDIAN => Some [scalar u32 pad; scalar u32 val]
      | r.h, BIG_ENDIAN => Some [array s16 pad 3; scalar s16 val]
      | r.hu, BIG_ENDIAN => Some [array u16 pad 3; scalar u16 val]
      | r.b, BIG_ENDIAN => Some [array s8 pad 7; scalar s8 val]
      | r.bu, BIG_ENDIAN => Some [array u8 pad 7; scalar u8 val]
      | _, _ => None
      end
  | freg_fp32 =>
      match v with
      | r.w => Some [scalar s32 val]
      | r.wu => Some [scalar u32 val]
      | r.x => Some [scalar s32 val]
      | r.xu => Some [scalar u32 val]
      | r.s => Some [scalar f32 val]
      | _ => None
      end
  | freg_fp64 =>
      match v, bo with
      | r.l, _ => Some [scalar s64 val]
      | r.lu, _ => Some [scalar u64 val]
      | r.x, _ => Some [scalar s64 val]
      | r.xu, _ => Some [scalar u64 val]
      | r.d, _ => Some [scalar f64 val]
      | r.s, LITTLE_ENDIAN => Some [scalar f32 val; scalar u32 pad]
      | r.w, LITTLE_ENDIAN => Some [scalar s32 val; scalar u32 pad]
      | r.wu, LITTLE_ENDIAN => Some [scalar u32 val; scalar u32 pad]
      | r.s, BIG_ENDIAN => Some [scalar u32 pad; scalar f32 val]
      | r.w, BIG_ENDIAN => Some [scalar u32 pad; scalar s32 val]
      | r.wu, BIG_ENDIAN => Some [scalar u32 pad; scalar u32 val]
      | _, _ => None
      end
  end.

(** [sizeof(r)]: a union is as large as its largest member. *)
Definition sizeof_r (k : regtype) (bo : byte_order) : nat :=
  foldr (fun v n => Nat.max (from_option struct_size 0%nat (union_r k bo v)) n)
    0%nat all_views.

(** ** Register cells *)

(** The storage of one register: the bytes of its union [r]. *)
Definition reg := list byte.

(** The constructors: [memset(&r, 0, sizeof(r))]. *)
Definition reg_init (k : regtype) (bo : byte_order) : reg :=
  replicate (sizeof_r k bo) Byte.x00.

(** Where [r.<v>.<m>] lives: its offset in the cell and its declaration. *)
Definition locate (k : regtype) (bo : byte_order) (v : r.view) (m : member)
    : option (nat * field) :=
  st ← union_r k bo v; offsetof m st.

(** Read [r.<v>.val]. *)
Definition read_val (k : regtype) (bo : byte_order) (v : r.view) (c : reg)
    : option Z :=
  '(off, f) ← locate k bo v val; Some (load bo (f_type f) off c).

(** [r.<v>.val = z]. *)
Definition write_val (k : regtype) (bo : byte_order) (v : r.view) (z : Z)
    (c : reg) : option reg :=
  '(off, f) ← locate k bo v val; Some (store bo (f_type f) off z c).

(** Read [r.<v>.pad[i]] (or [r.<v>.pad] for [i = 0] when it is a scalar). *)
Definition read_pad (k : regtype) (bo : byte_order) (v : r.view) (i : nat)
    (c : reg) : option Z :=
  '(off, f) ← locate k bo v pad;
  if decide (i < f_len f)%nat
  then Some (load bo (f_type f) (off + i * sizeof (f_type f)) c)
  else None.

(** ** Operators of the integer registers *)

Definition is_ireg (k : regtype) : bool :=
  match k with
  | ireg_rv32 | ireg_rv64 => true
  | _ => false
  end.

(** [operator=(sx val) { r.x.val = val; return *this; }] *)
Definition ireg_assign (k : regtype) (bo : byte_order) (z : Z) (c : reg)
    : option reg :=
  if is_ireg k then write_val k bo r.x z c else None.

(** [operator sx() const { return r.x.val; }] *)
Definition ireg_to_sx (k : regtype) (bo : byte_order) (c : reg) : option Z :=
  if is_ireg k then read_val k bo r.x c else None.

(** [reinterpret_cast<T*>(z)] of an integer value [z], as the address it
    yields on a host with [ptr_bits]-bit pointers: the value is
    sign-extended (signed source), zero-extended (unsigned source) or cut
    to the pointer width, that is, reduced modulo [2 ^ ptr_bits]. *)
Definition reinterpret_cast (ptr_bits : Z) (z : Z) : Z := z mod 2 ^ ptr_bits.

(** [operator s32*() const { return reinterpret_cast<s32*>(r.w.val); }],
    declared by both integer registers. *)
Definition ireg_to_s32p (k : regtype) (bo : byte_order) (ptr_bits : Z)
    (c : reg) : option Z :=
  if is_ireg k then reinterpret_cast ptr_bits <$> read_val k bo r.w c else None.

(** [operator s64*() const { return reinterpret_cast<s64*>(r.l.val); }],
    declared by [ireg_rv64] only. *)
Definition ireg_to_s64p (k : regtype) (bo : byte_order) (ptr_bits : Z)
    (c : reg) : option Z :=
  match k with
  | ireg_rv64 => reinterpret_cast ptr_bits <$> read_val k bo r.l c
  | _ => None
  end.

(** ** Processor logging flags *)

Definition proc_log_inst : Z := Z.shiftl 1 0.
Definition proc_log_operands : Z := Z.shiftl 1 1.
Definition proc_log_memory : Z := Z.shiftl 1 2.
Definition proc_log_csr_mmode : Z := Z.shiftl 1 3.
Definition proc_log_csr_hmode : Z := Z.shiftl 1 4.
Definition proc_log_csr_smode : Z := Z.shiftl 1 5.
Definition proc_log_csr_umode : Z := Z.shiftl 1 6.
Definition proc_log_int_reg : Z := Z.shiftl 1 7.
Definition proc_log_no_pseudo : Z := Z.shiftl 1 8.

(** The enumerators of the anonymous [enum], in declaration order. *)
Definition proc_log_flags : list Z :=
  [proc_log_inst; proc_log_operands; proc_log_memory; proc_log_csr_mmode;
   proc_log_csr_hmode; proc_log_csr_smode; proc_log_csr_umode;
   proc_log_int_reg; proc_log_no_pseudo].

(** What a consumer of the [u32 log] field does with a flag [f]:
    [log |= f], [log &= ~f] and [log & f]. *)
Definition log_enable (f lg : Z) : Z := Z.lor lg f.
Definition log_disable (f lg : Z) : Z := Z.land lg (Z.lnot f) mod 2 ^ 32.
Definition log_enabled (f lg : Z) : bool := negb (Z.land lg f =? 0).

(** ** Processor state *)

(** The template parameters of [processor]. *)
Record config := Config {
  SX : ctype;
  UX : ctype;
  IREG : regtype;
  IREG_COUNT : Z;
  FREG : regtype;
  FREG_COUNT : Z
}.

(** [enum { xlen = sizeof(ux) << 3, ireg_count = IREG_COUNT,
           freg_count = FREG_COUNT }] *)
Definition xlen (cfg : config) : Z := Z.shiftl (Z.of_nat (sizeof (UX cfg))) 3.
Definition ireg_count (cfg : config) : Z := IREG_COUNT cfg.
Definition freg_count (cfg : config) : Z := FREG_COUNT cfg.

(** [using processor_rv32imafd = processor<s32,u32,ireg_rv32,32,freg_fp64,32>]
    and its 64-bit sibling. *)
Definition processor_rv32imafd : config := Config s32 u32 ireg_rv32 32 freg_fp64 32.
Definition processor_rv64imafd : config := Config s64 u64 ireg_rv64 32 freg_fp64 32.

(** The data members of [processor], in declaration order.  [env] is the
    [jmp_buf]; its content is opaque to this header, we keep its bytes. *)
Record processor := Processor {
  pc : Z;
  ireg : list reg;
  freg : list reg;
  node_id : Z;
  hart_id : Z;
  log : Z;
  lr : Z;
  badaddr : Z;
  env : list byte;
  time : Z;
  cycle : Z;
  instret : Z;
  fcsr : Z
}.

(** The constructor
    [processor() : pc(0), ireg(), freg(), node_id(0), hart_id(0), log(0),
                   lr(-1), badaddr(0), env(), time(0), cycle(0), instret(0),
                   fcsr(0) {}].
    [ireg()] and [freg()] run the register constructor on every element,
    [env()] zeroes the [jmp_buf], whose size [sizeof_jmp_buf] is the
    host's. *)
Definition processor_init (cfg : config) (bo : byte_order)
    (sizeof_jmp_buf : nat) : processor :=
  {| pc := convert (UX cfg) 0;
     ireg := replicate (Z.to_nat (ireg_count cfg)) (reg_init (IREG cfg) bo);
     freg := replicate (Z.to_nat (freg_count cfg)) (reg_init (FREG cfg) bo);
     node_id := convert u16 0;
     hart_id := convert u16 0;
     log := convert u32 0;
     lr := convert (SX cfg) (-1);
     badaddr := convert (SX cfg) 0;
     env := replicate sizeof_jmp_buf Byte.x00;
     time := convert u64 0;
     cycle := convert u64 0;
     instret := convert u64 0;
     fcsr := convert (UX cfg) 0 |}.

(** *** Field updates *)

Definition with_pc (z : Z) (p : processor) : processor :=
  Processor z (ireg p) (freg p) (node_id p) (hart_id p) (log p) (lr p)
    (badaddr p) (env p) (time p) (cycle p) (instret p) (fcsr p).
Definition with_ireg (rs : list reg) (p : processor) : processor :=
  Processor (pc p) rs (freg p) (node_id p) (hart_id p) (log p) (lr p)
    (badaddr p) (env p) (time p) (cycle p) (instret p) (fcsr p).
Definition with_freg (rs : list reg) (p : processor) : processor :=
  Processor (pc p) (ireg p) rs (node_id p) (hart_id p) (log p) (lr p)
    (badaddr p) (env p) (time p) (cycle p) (instret p) (fcsr p).
Definition with_node_id (z : Z) (p : processor) : processor :=
  Processor (pc p) (ireg p) (freg p) z (hart_id p) (log p) (lr p)
    (badaddr p) (env p) (time p) (cycle p) (instret p) (fcsr p).
Definition with_hart_id (z : Z) (p : processor) : processor :=
  Processor (pc p) (ireg p) (freg p) (node_id p) z (log p) (lr p)
    (badaddr p) (env p) (time p) (cycle p) (instret p) (fcsr p).
Definition with_log (z : Z) (p : processor) : processor :=
  Processor (pc p) (ireg p) (freg p) (node_id p) (hart_id p) z (lr p)
    (badaddr p) (env p) (time p) (cycle p) (instret p) (fcsr p).
Definition with_lr (z : Z) (p : processor) : processor :=
  Processor (pc p) (ireg p) (freg p) (node_id p) (hart_id p) (log p) z
    (badaddr p) (env p) (time p) (cycle p) (instret p) (fcsr p).
Definition with_badaddr (z : Z) (p : processor) : processor :=
  Processor (pc p) (ireg p) (freg p) (node_id p) (hart_id p) (log p) (lr p)
    z (env p) (time p) (cycle p) (instret p) (fcsr p).
Definition with_time (z : Z) (p : processor) : processor :=
  Processor (pc p) (ireg p) (freg p) (node_id p) (hart_id p) (log p) (lr p)
    (badaddr p) (env p) z (cycle p) (instret p) (fcsr p).
Definition with_cycle (z : Z) (p : processor) : processor :=
  Processor (pc p) (ireg p) (freg p) (node_id p) (hart_id p) (log p) (lr p)
    (badaddr p) (env p) (time p) z (instret p) (fcsr p).
Definition with_instret (z : Z) (p : processor) : processor :=
  Processor (pc p) (ireg p) (freg p) (node_id p) (hart_id p) (log p) (lr p)
    (badaddr p) (env p) (time p) (cycle p) z (fcsr p).
Definition with_fcsr (z : Z) (p : processor) : processor :=
  Processor (pc p) (ireg p) (freg p) (node_id p) (hart_id p) (log p) (lr p)
    (badaddr p) (env p) (time p) (cycle p) (instret p) z.

(** The header gives [processor] no member functions: the executor reads
    and writes the data members directly.  A [mutation] is one such write;
    the stored value is the written one converted to the member's type. *)
Inductive mutation :=
  | assign_pc (z : Z)                           (* p.pc = z *)
  | assign_ireg (i : nat) (z : Z)               (* p.ireg[i] = z *)
  | write_ireg (i : nat) (v : r.view) (z : Z)   (* p.ireg[i].r.v.val = z *)
  | write_freg (i : nat) (v : r.view) (z : Z)   (* p.freg[i].r.v.val = z *)
  | assign_node_id (z : Z)
  | assign_hart_id (z : Z)
  | assign_log (z : Z)
  | assign_lr (z : Z)
  | assign_badaddr (z : Z)
  | assign_time (z : Z)
  | assign_cycle (z : Z)
  | assign_instret (z : Z)
  | assign_fcsr (z : Z).

(** A register index outside the array, or a view the register type does
    not declare, has no defined outcome ([None]). *)
Definition mutate (cfg : config) (bo : byte_order) (m : mutation)
    (p : processor) : option processor :=
  match m with
  | assign_pc z => Some (with_pc (convert (UX cfg) z) p)
  | assign_ireg i z =>
      c ← ireg p !! i; c' ← ireg_assign (IREG cfg) bo z c;
      Some (with_ireg (<[i := c']> (ireg p)) p)
  | write_ireg i v z =>
      c ← ireg p !! i; c' ← write_val (IREG cfg) bo v z c;
      Some (with_ireg (<[i := c']> (ireg p)) p)
  | write_freg i v z =>
      c ← freg p !! i; c' ← write_val (FREG cfg) bo v z c;
      Some (with_freg (<[i := c']> (freg p)) p)
  | assign_node_id z => Some (with_node_id (convert u16 z) p)
  | assign_hart_id z => Some (with_hart_id (convert u16 z) p)
  | assign_log z => Some (with_log (convert u32 z) p)
  | assign_lr z => Some (with_lr (convert (SX cfg) z) p)
  | assign_badaddr z => Some (with_badaddr (convert (SX cfg) z) p)
  | assign_time z => Some (with_time (convert u64 z) p)
  | assign_cycle z => Some (with_cycle (convert u64 z) p)
  | assign_instret z => Some (with_instret (convert u64 z) p)
  | assign_fcsr z => Some (with_fcsr (convert (UX cfg) z) p)
  end.

(** Read [p.ireg[i].r.<v>.val] and [p.freg[i].r.<v>.val]. *)
Definition read_ireg (cfg : config) (bo : byte_order) (i : nat) (v : r.view)
    (p : processor) : option Z :=
  c ← ireg p !! i; read_val (IREG cfg) bo v c.
Definition read_freg (cfg : config) (bo : byte_order) (i : nat) (v : r.view)
    (p : processor) : option Z :=
  c ← freg p !! i; read_val (FREG cfg) bo v c.

(** ** Processor objects in memory *)

(** Several [processor] objects live side by side in the memory of the
    simulator.  To state what a write through one object does to another,
    [processor] is also given its memory representation: its members at
    their offsets in one block of bytes, a member access being a load or a
    store at the address of the object plus the offset of the member. *)

(** What the ABI of the host fixes and the header does not: the alignment
    of the scalar types, and the size and alignment of [jmp_buf]. *)
Record abi := Abi {
  abi_alignof : ctype -> nat;
  abi_sizeof_jmp_buf : nat;
  abi_alignof_jmp_buf : nat
}.

(** The least multiple of [a] that is not below [x] ([x] itself for
    [a = 0]). *)
Definition align_up (x a : nat) : nat := (x + (a - x `mod` a) `mod` a)%nat.

(** The data members of [processor], in declaration order. *)
Inductive pmember :=
  | p_pc | p_ireg | p_freg | p_node_id | p_hart_id | p_log | p_lr | p_badaddr
  | p_env | p_time | p_cycle | p_instret | p_fcsr.

#[global] Instance pmember_eq_dec : EqDecision pmember.
Proof. solve_decision. Defined.

Definition processor_members : list pmember :=
  [p_pc; p_ireg; p_freg; p_node_id; p_hart_id; p_log; p_lr; p_badaddr; p_env;
   p_time; p_cycle; p_instret; p_fcsr].

(** The declared type of the scalar members. *)
Definition pmember_type (cfg : config) (pm : pmember) : option ctype :=
  match pm with
  | p_pc => Some (UX cfg)
  | p_node_id => Some u16
  | p_hart_id => Some u16
  | p_log => Some u32
  | p_lr => Some (SX cfg)
  | p_badaddr => Some (SX cfg)
  | p_time => Some u64
  | p_cycle => Some u64
  | p_instret => Some u64
  | p_fcsr => Some (UX cfg)
  | p_ireg | p_freg | p_env => None
  end.

(** The alignment of a register struct: that of its strictest member. *)
Definition alignof_r (h : abi) (k : regtype) (bo : byte_order) : nat :=
  foldr (fun v n =>
           Nat.max
             (from_option
                (foldr (fun f a => Nat.max (abi_alignof h (f_type f)) a) 1%nat)
                1%nat (union_r k bo v))
             n)
    1%nat all_views.

Definition pmember_size (cfg : config) (bo : byte_order) (h : abi)
    (pm : pmember) : nat :=
  match pm with
  | p_ireg => (Z.to_nat (ireg_count cfg) * sizeof_r (IREG cfg) bo)%nat
  | p_freg => (Z.to_nat (freg_count cfg) * sizeof_r (FREG cfg) bo)%nat
  | p_env => abi_sizeof_jmp_buf h
  | _ => from_option sizeof 0%nat (pmember_type cfg pm)
  end.

Definition pmember_align (cfg : config) (bo : byte_order) (h : abi)
    (pm : pmember) : nat :=
  match pm with
  | p_ireg => alignof_r h (IREG cfg) bo
  | p_freg => alignof_r h (FREG cfg) bo
  | p_env => abi_alignof_jmp_buf h
  | _ => from_option (abi_alignof h) 1%nat (pmember_type cfg pm)
  end.

(** Struct layout: each member goes to the next address that suits its
    alignment; [offset_from] is the offset given to [m] and [end_from] the
    first offset behind the last member when the members [ms] are laid out
    from offset [cur] on. *)
Fixpoint offset_from (sz al : pmember -> nat) (cur : nat) (ms : list pmember)
    (m : pmember) : option nat :=
  match ms with
  | [] => None
  | m' :: ms' =>
      if decide (m' = m) then Some (align_up cur (al m'))
      else offset_from sz al (align_up cur (al m') + sz m')%nat ms' m
  end.

Fixpoint end_from (sz al : pmember -> nat) (cur : nat) (ms : list pmember)
    : nat :=
  match ms with
  | [] => cur
  | m' :: ms' => end_from sz al (align_up cur (al m') + sz m')%nat ms'
  end.

Definition offsetof_member (cfg : config) (bo : byte_order) (h : abi)
    (pm : pmember) : option nat :=
  offset_from (pmember_size cfg bo h) (pmember_align cfg bo h) 0
    processor_members pm.

Definition alignof_processor (cfg : config) (bo : byte_order) (h : abi) : nat :=
  foldr (fun pm a => Nat.max (pmember_align cfg bo h pm) a) 1%nat
    processor_members.

(** [sizeof(processor<...>)] *)
Definition sizeof_processor (cfg : config) (bo : byte_order) (h : abi) : nat :=
  align_up
    (end_from (pmember_size cfg bo h) (pmember_align cfg bo h) 0
       processor_members)
    (alignof_processor cfg bo h).

(** The scalars of a processor object that the executor can name: a scalar
    member, or the [val] of a view of a register. *)
Inductive member_ref :=
  | m_scalar (pm : pmember)               (* p.pc, p.node_id, ... *)
  | m_ireg (i : nat) (v : r.view)         (* p.ireg[i].r.v.val *)
  | m_freg (i : nat) (v : r.view).        (* p.freg[i].r.v.val *)

(** Offset in the object and type of such a scalar.  An index outside the
    array designates nothing ([None]), as does an undeclared view. *)
Definition place (cfg : config) (bo : byte_order) (h : abi) (mr : member_ref)
    : option (nat * ctype) :=
  match mr with
  | m_scalar pm =>
      t ← pmember_type cfg pm; o ← offsetof_member cfg bo h pm; Some (o, t)
  | m_ireg i v =>
      if decide (i < Z.to_nat (ireg_count cfg))%nat then
        '(off, f) ← locate (IREG cfg) bo v val;
        o ← offsetof_member cfg bo h p_ireg;
        Some ((o + i * sizeof_r (IREG cfg) bo + off)%nat, f_type f)
      else None
  | m_freg i v =>
      if decide (i < Z.to_nat (freg_count cfg))%nat then
        '(off, f) ← locate (FREG cfg) bo v val;
        o ← offsetof_member cfg bo h p_freg;
        Some ((o + i * sizeof_r (FREG cfg) bo + off)%nat, f_type f)
      else None
  end.

(** The scalar a [mutation] writes, and the value it writes there. *)
Definition target (cfg : config) (mu : mutation) : option (member_ref * Z) :=
  match mu with
  | assign_pc z => Some (m_scalar p_pc, z)
  | assign_ireg i z =>
      if is_ireg (IREG cfg) then Some (m_ireg i r.x, z) else None
  | write_ireg i v z => Some (m_ireg i v, z)
  | write_freg i v z => Some (m_freg i v, z)
  | assign_node_id z => Some (m_scalar p_node_id, z)
  | assign_hart_id z => Some (m_scalar p_hart_id, z)
  | assign_log z => Some (m_scalar p_log, z)
  | assign_lr z => Some (m_scalar p_lr, z)
  | assign_badaddr z => Some (m_scalar p_badaddr, z)
  | assign_time z => Some (m_scalar p_time, z)
  | assign_cycle z => Some (m_scalar p_cycle, z)
  | assign_instret z => Some (m_scalar p_instret, z)
  | assign_fcsr z => Some (m_scalar p_fcsr, z)
  end.

(** Memory is a sequence of bytes, an address an index into it.  A
    processor object at address [base] occupies the [sizeof_processor]
    bytes from [base] on, which have to lie in memory. *)
Definition mem_read (cfg : config) (bo : byte_order) (h : abi) (base : nat)
    (mr : member_ref) (m : list byte) : option Z :=
  '(off, t) ← place cfg bo h mr;
  if decide (base + sizeof_processor cfg bo h <= length m)%nat
  then Some (load bo t (base + off) m) else None.

Definition mem_write (cfg : config) (bo : byte_order) (h : abi) (base : nat)
    (mr : member_ref) (z : Z) (m : list byte) : option (list byte) :=
  '(off, t) ← place cfg bo h mr;
  if decide (base + sizeof_processor cfg bo h <= length m)%nat
  then Some (store bo t (base + off) z m) else None.

(** The write [mu] done through the object at [base]. *)
Definition mem_mutate (cfg : config) (bo : byte_order) (h : abi) (base : nat)
    (mu : mutation) (m : list byte) : option (list byte) :=
  '(mr, z) ← target cfg mu; mem_write cfg bo h base mr z m.

Definition write_bytes (off : nat) (bs : list byte) (m : list byte)
    : list byte :=
  take off m ++ bs ++ drop (off + length bs) m.

(** The bytes the constructor gives to each member: zero everywhere
    ([pc(0)], the [memset] of every register, [env()], ...), except for
    [lr(-1)]. *)
Definition init_bytes (cfg : config) (bo : byte_order) (h : abi)
    (pm : pmember) : list byte :=
  match pm with
  | p_lr => host_split bo (sizeof (SX cfg)) (-1)
  | _ => replicate (pmember_size cfg bo h pm) Byte.x00
  end.

(** The constructor run on the storage at [base]: every member is
    initialised, in declaration order; bytes between members are left as
    they are. *)
Definition mem_construct (cfg : config) (bo : byte_order) (h : abi)
    (base : nat) (m : list byte) : option (list byte) :=
  if decide (base + sizeof_processor cfg bo h <= length m)%nat then
    Some (foldl
            (fun m' pm =>
               from_option
                 (fun o => write_bytes (base + o) (init_bytes cfg bo h pm) m')
                 m' (offsetof_member cfg bo h pm))
            m processor_members)
  else None.

(** The states the executor can bring a processor into. *)
Inductive reachable (cfg : config) (bo : byte_order) (sizeof_jmp_buf : nat)
    : processor -> Prop :=
  | reachable_init :
      reachable cfg bo sizeof_jmp_buf (processor_init cfg bo sizeof_jmp_buf)
  | reachable_step p m p' :
      reachable cfg bo sizeof_jmp_buf p ->
      mutate cfg bo m p = Some p' ->
      reachable cfg bo sizeof_jmp_buf p'.


(** ** Auxiliary notions used in the statements *)

(** The position of the low-order [n] bytes of an [N]-byte scalar. *)
Definition low_offset (bo : byte_order) (N n : nat) : nat :=
  match bo with
  | LITTLE_ENDIAN => 0
  | BIG_ENDIAN => N - n
  end%nat.

(** The sub-views of the integer registers that are narrower than the
    register, with the type of their [val]. *)
Definition narrow_views (k : regtype) : list (r.view * ctype) :=
  match k with
  | ireg_rv32 => [(r.h, s16); (r.hu, u16); (r.b, s8); (r.bu, u8)]
  | ireg_rv64 =>
      [(r.w, s32); (r.wu, u32); (r.h, s16); (r.hu, u16); (r.b, s8); (r.bu, u8)]
  | _ => []
  end.

(** [z] is a value of the scalar type [t]. *)
Definition in_range (t : ctype) (z : Z) : Prop := convert t z = z.

(** The representation invariant of a processor of configuration [cfg]:
    every scalar member holds a value of its declared type, the register
    arrays have the declared number of elements and every element has the
    size of its union. *)
Record wf_processor (cfg : config) (bo : byte_order) (p : processor) : Prop := {
  wf_pc : in_range (UX cfg) (pc p);
  wf_ireg_count : length (ireg p) = Z.to_nat (ireg_count cfg);
  wf_ireg : Forall (fun c => length c = sizeof_r (IREG cfg) bo) (ireg p);
  wf_freg_count : length (freg p) = Z.to_nat (freg_count cfg);
  wf_freg : Forall (fun c => length c = sizeof_r (FREG cfg) bo) (freg p);
  wf_node_id : in_range u16 (node_id p);
  wf_hart_id : in_range u16 (hart_id p);
  wf_log : in_range u32 (log p);
  wf_lr : in_range (SX cfg) (lr p);
  wf_badaddr : in_range (SX cfg) (badaddr p);
  wf_time : in_range u64 (time p);
  wf_cycle : in_range u64 (cycle p);
  wf_instret : in_range u64 (instret p);
  wf_fcsr : in_range (UX cfg) (fcsr p)
}.

(** *** The processor a memory holds *)

(** The [n] bytes of [m] from offset [off] on. *)
Definition slice (off n : nat) (m : list byte) : list byte :=
  take n (drop off m).

(** The bytes of member [pm] of the object at [base]. *)
Definition member_bytes (cfg : config) (bo : byte_order) (h : abi) (base : nat)
    (pm : pmember) (m : list byte) : list byte :=
  slice (base + default 0%nat (offsetof_member cfg bo h pm))
    (pmember_size cfg bo h pm) m.

(** The value of a scalar member, given its bytes. *)
Definition scalar_of (cfg : config) (bo : byte_order) (pm : pmember)
    (bs : list byte) : Z :=
  from_option (fun t => of_bits t (host_combine bo bs)) 0 (pmember_type cfg pm).

(** The elements of an array of [n] registers of [size] bytes each. *)
Definition chunks (n size : nat) (bs : list byte) : list reg :=
  (fun i => slice (i * size) size bs) <$> seq 0 n.

(** The processor state held by the object at [base]: every member read
    from its bytes. *)
Definition object_at (cfg : config) (bo : byte_order) (h : abi) (base : nat)
    (m : list byte) : processor :=
  let mb pm := member_bytes cfg bo h base pm m in
  {| pc := scalar_of cfg bo p_pc (mb p_pc);
     ireg := chunks (Z.to_nat (ireg_count cfg)) (sizeof_r (IREG cfg) bo)
               (mb p_ireg);
     freg := chunks (Z.to_nat (freg_count cfg)) (sizeof_r (FREG cfg) bo)
               (mb p_freg);
     node_id := scalar_of cfg bo p_node_id (mb p_node_id);
     hart_id := scalar_of cfg bo p_hart_id (mb p_hart_id);
     log := scalar_of cfg bo p_log (mb p_log);
     lr := scalar_of cfg bo p_lr (mb p_lr);
     badaddr := scalar_of cfg bo p_badaddr (mb p_badaddr);
     env := mb p_env;
     time := scalar_of cfg bo p_time (mb p_time);
     cycle := scalar_of cfg bo p_cycle (mb p_cycle);
     instret := scalar_of cfg bo p_instret (mb p_instret);
     fcsr := scalar_of cfg bo p_fcsr (mb p_fcsr) |}.

(** An ABI with naturally aligned scalars and a 200-byte, 8-aligned
    [jmp_buf], and a memory holding two 32-bit processors next to each
    other, both constructed, the second one then written to. *)
Definition natural_abi : abi := Abi sizeof 200 8.

Definition two_harts : list byte :=
  let cfg := processor_rv32imafd in
  let size := sizeof_processor cfg LITTLE_ENDIAN natural_abi in
  default []
    (m1 ← mem_construct cfg LITTLE_ENDIAN natural_abi 0
            (replicate (2 * size) Byte.xff);
     m2 ← mem_construct cfg LITTLE_ENDIAN natural_abi size m1;
     m3 ← mem_mutate cfg LITTLE_ENDIAN natural_abi size
            (assign_pc 0x80000000) m2;
     m4 ← mem_mutate cfg LITTLE_ENDIAN natural_abi size
            (write_ireg 5 r.x (-7)) m3;
     m5 ← mem_mutate cfg LITTLE_ENDIAN natural_abi size
            (write_freg 3 r.d 0x3ff0000000000000) m4;
     mem_mutate cfg LITTLE_ENDIAN natural_abi size (assign_instret 99) m5).

(** * Properties *)

(** ** Scalars and bytes *)

Lemma bitsof_pos t : 0 < bitsof t.
Proof. destruct t; reflexivity. Qed.

Lemma bitsof_sizeof t : Z.of_nat (sizeof t) * 8 = bitsof t.
Proof. unfold bitsof. lia. Qed.

Lemma to_signed_mod w u : 0 < w -> to_signed w u mod 2 ^ w = u mod 2 ^ w.
Proof.
  intros Hw. unfold to_signed. destruct (u <? 2 ^ (w - 1)); [done|].
  replace (u - 2 ^ w) with (u + (-1) * 2 ^ w) by lia.
  apply Z_mod_plus_full.
Qed.

Lemma of_bits_mod t u : of_bits t u mod 2 ^ bitsof t = u mod 2 ^ bitsof t.
Proof.
  unfold of_bits. destruct (is_signed t); [|done].
  apply to_signed_mod, bitsof_pos.
Qed.

Lemma convert_mod t z : convert t z mod 2 ^ bitsof t = z mod 2 ^ bitsof t.
Proof.
  unfold convert. rewrite of_bits_mod. apply Z.mod_mod, Z.pow_nonzero; [lia|].
  pose proof (bitsof_pos t). lia.
Qed.

(** A converted value lies in the range of its type. *)
Lemma convert_range t z :
  if is_signed t
  then - 2 ^ (bitsof t - 1) <= convert t z < 2 ^ (bitsof t - 1)
  else 0 <= convert t z < 2 ^ bitsof t.
Proof.
  unfold convert, of_bits, to_signed.
  pose proof (bitsof_pos t) as Hw.
  assert (0 <= z mod 2 ^ bitsof t < 2 ^ bitsof t) as Hr
    by (apply Z.mod_pos_bound; lia).
  assert (2 ^ bitsof t = 2 * 2 ^ (bitsof t - 1)) as Hp.
  { rewrite <- Z.pow_succ_r by lia. f_equal. lia. }
  destruct (is_signed t); [|done].
  destruct (Z.ltb_spec (z mod 2 ^ bitsof t) (2 ^ (bitsof t - 1))); lia.
Qed.

(** Converting an unsigned value is reduction modulo the width. *)
Lemma convert_unsigned t z : is_signed t = false -> convert t z = z mod 2 ^ bitsof t.
Proof. intros H. unfold convert, of_bits. by rewrite H. Qed.

Lemma length_host_split bo n z : length (host_split bo n z) = n.
Proof. destruct bo; simpl; rewrite ?length_rev; apply length_le_split. Qed.

Lemma host_combine_split bo n z :
  host_combine bo (host_split bo n z) = z mod 2 ^ (Z.of_nat n * 8).
Proof. destruct bo; simpl; rewrite ?rev_involutive; apply le_combine_split. Qed.

Lemma take_le_split n : forall N z, (n <= N)%nat -> take n (le_split N z) = le_split n z.
Proof.
  induction n as [|n IH]; intros N z Hn; [done|].
  destruct N as [|N]; [lia|].
  change (le_split (S N) z) with (byte.of_Z z :: le_split N (Z.shiftr z 8)).
  change (le_split (S n) z) with (byte.of_Z z :: le_split n (Z.shiftr z 8)).
  simpl. f_equal. apply IH. lia.
Qed.

(** The bytes found at [low_offset] in the representation of [z] are the
    representation of [z] at the narrower width. *)
Lemma host_split_low bo N n z :
  (n <= N)%nat ->
  take n (drop (low_offset bo N n) (host_split bo N z)) = host_split bo n z.
Proof.
  intros Hn. destruct bo; simpl.
  - by apply take_le_split.
  - rewrite skipn_rev, length_le_split.
    replace (N - (N - n))%nat with n by lia.
    rewrite take_le_split by done.
    apply firstn_all2. by rewrite length_rev, length_le_split.
Qed.

Lemma store_whole bo t z m :
  length m = sizeof t -> store bo t 0 z m = host_split bo (sizeof t) z.
Proof.
  intros Hm. unfold store. rewrite take_0, drop_ge by (simpl; lia).
  by rewrite app_nil_r.
Qed.

Lemma length_store bo t off z m :
  (off + sizeof t <= length m)%nat -> length (store bo t off z m) = length m.
Proof.
  intros H. unfold store.
  rewrite !length_app, length_take, length_drop, length_host_split. lia.
Qed.

(** A load sees what a store of the same size at the same place wrote. *)
Lemma load_store bo t t' off z m :
  sizeof t = sizeof t' -> (off <= length m)%nat ->
  load bo t off (store bo t' off z m) = convert t z.
Proof.
  intros Hs Hoff. unfold load, store, convert.
  rewrite drop_app_length' by (rewrite length_take; lia).
  rewrite take_app_length' by (rewrite length_host_split; lia).
  rewrite host_combine_split, <- Hs. by rewrite bitsof_sizeof.
Qed.

(** A store leaves the bytes outside its range alone. *)
Lemma store_lookup_other bo t off z m i :
  (off + sizeof t <= length m)%nat ->
  (i < off \/ off + sizeof t <= i)%nat ->
  store bo t off z m !! i = m !! i.
Proof.
  intros Hm Hi. unfold store. destruct Hi as [Hi|Hi].
  - rewrite lookup_app_l by (rewrite length_take; lia).
    by apply lookup_take_lt.
  - rewrite lookup_app_r by (rewrite length_take; lia).
    rewrite lookup_app_r by (rewrite length_take, length_host_split; lia).
    rewrite length_take, length_host_split, lookup_drop.
    f_equal. lia.
Qed.

(** A load at the low-order position of a freshly stored wider scalar reads
    the stored value converted to the narrower type. *)
Lemma load_low bo t N z :
  (sizeof t <= N)%nat ->
  load bo t (low_offset bo N (sizeof t)) (host_split bo N z) = convert t z.
Proof.
  intros Hn. unfold load, convert.
  rewrite host_split_low, host_combine_split by done.
  by rewrite bitsof_sizeof.
Qed.

(** ** Integer registers: narrow views of an assigned value *)

Lemma ireg_assign_whole k bo z c :
  is_ireg k = true -> length c = sizeof_r k bo ->
  ireg_assign k bo z c = Some (host_split bo (sizeof_r k bo) z).
Proof.
  intros Hk Hc. unfold ireg_assign. rewrite Hk.
  set (t := match k with ireg_rv32 => s32 | _ => s64 end).
  trans (Some (store bo t 0 z c)); [by destruct k, bo|].
  f_equal. rewrite store_whole; by destruct k, bo.
Qed.

(** C1. After [reg = z], every narrower view of an integer register reads
    [z] cut down to the view's type.  The view's [val] lies at offset 0 with
    the padding behind it on a little-endian host, and at the end of the
    cell with the padding in front of it on a big-endian host; in both
    cases the bytes found there are the host representation of [z] at the
    narrow width. *)
Theorem narrow_view_reads_truncation
    (k : regtype) (bo : byte_order) (z : Z) (c : reg) (v : r.view) (t : ctype) :
  length c = sizeof_r k bo ->
  (v, t) ∈ narrow_views k ->
  let off := low_offset bo (sizeof_r k bo) (sizeof t) in
  exists c' padf,
    ireg_assign k bo z c = Some c' /\
    read_val k bo v c' = Some (convert t z) /\
    locate k bo v val = Some (off, scalar t val) /\
    locate k bo v pad =
      Some (match bo with LITTLE_ENDIAN => sizeof t | BIG_ENDIAN => 0%nat end,
            padf) /\
    (field_size padf + sizeof t = sizeof_r k bo)%nat /\
    take (sizeof t) (drop off c') = host_split bo (sizeof t) z.
Proof.
  intros Hc Hin off.
  assert (is_ireg k = true) as Hk by (destruct k; try done; inversion Hin).
  exists (host_split bo (sizeof_r k bo) z).
  rewrite ireg_assign_whole by done.
  assert ((sizeof t <= sizeof_r k bo)%nat /\
          exists padf,
            locate k bo v val = Some (off, scalar t val) /\
            locate k bo v pad =
              Some (match bo with
                    | LITTLE_ENDIAN => sizeof t
                    | BIG_ENDIAN => 0%nat
                    end, padf) /\
            (field_size padf + sizeof t = sizeof_r k bo)%nat)
    as (Hle & padf & Hval & Hpad & Hsz).
  { subst off. destruct k; simpl in Hin; try (by inversion Hin);
      repeat (apply elem_of_cons in Hin as [Hin|Hin]; [simplify_eq|]);
      try (by inversion Hin);
      (split; [destruct bo; vm_compute; lia|]);
      destruct bo; eexists; (split; [reflexivity|]); split; reflexivity. }
  exists padf. repeat split; try done.
  - unfold read_val. rewrite Hval. simpl. f_equal. by apply load_low.
  - by apply host_split_low.
Qed.

Lemma narrow_view_reads_truncation_witness :
  exists c' padf,
    ireg_assign ireg_rv64 BIG_ENDIAN (-2) (reg_init ireg_rv64 BIG_ENDIAN)
      = Some c' /\
    read_val ireg_rv64 BIG_ENDIAN r.hu c' = Some (convert u16 (-2)) /\
    locate ireg_rv64 BIG_ENDIAN r.hu val = Some (6%nat, scalar u16 val) /\
    locate ireg_rv64 BIG_ENDIAN r.hu pad = Some (0%nat, padf) /\
    (field_size padf + sizeof u16 = sizeof_r ireg_rv64 BIG_ENDIAN)%nat /\
    take (sizeof u16) (drop 6 c') = host_split BIG_ENDIAN (sizeof u16) (-2).
Proof.
  apply (narrow_view_reads_truncation ireg_rv64 BIG_ENDIAN (-2)
           (reg_init ireg_rv64 BIG_ENDIAN) r.hu u16).
  - reflexivity.
  - simpl. apply list_elem_of_In. simpl. tauto.
Defined.

(** ** Layout sanity *)

(** In every struct of every union, [val] sits at a multiple of its own
    size and the struct fills the union exactly: the offsets computed by
    [offsetof] are the ones a compiler assigns, without padding of its
    own. *)
Lemma val_naturally_aligned k bo v st off f :
  union_r k bo v = Some st ->
  offsetof val st = Some (off, f) ->
  (off `mod` sizeof (f_type f) = 0)%nat /\
  (off + sizeof (f_type f) <= sizeof_r k bo)%nat /\
  struct_size st = sizeof_r k bo /\ f_len f = 1%nat.
Proof.
  intros Hst Hoff.
  destruct k, bo, v; simpl in Hst; simplify_eq; simpl in Hoff; simplify_eq;
    vm_compute; repeat split; lia.
Qed.

(** Every declared struct has a [val]. *)
Lemma val_declared k bo v :
  is_Some (union_r k bo v) <-> is_Some (locate k bo v val).
Proof.
  unfold locate.
  destruct k, bo, v; simpl; split; intros [? ?]; simplify_eq; eauto.
Qed.

Lemma length_reg_init k bo : length (reg_init k bo) = sizeof_r k bo.
Proof. apply length_replicate. Qed.

(** ** Construction *)

Lemma convert_0 t : convert t 0 = 0.
Proof. by destruct t. Qed.

Lemma convert_minus_1_bits t : convert t (-1) mod 2 ^ bitsof t = Z.ones (bitsof t).
Proof. by destruct t. Qed.

Lemma read_val_reg_init k bo v :
  read_val k bo v (reg_init k bo) = (fun _ => 0) <$> union_r k bo v.
Proof. by destruct k, bo, v. Qed.

(** C2. A default-constructed register cell consists of zero bytes and
    reads 0 through every view its union declares.  A default-constructed
    processor has [pc], [node_id], [hart_id], [log], [badaddr], [time],
    [cycle], [instret] and [fcsr] equal to 0, [ireg_count] integer and
    [freg_count] floating-point registers which all read 0 through every
    view, and [lr] with all bits set: its bit pattern is [Z.ones] of the
    native width, which is the value -1 of the signed native type. *)
Theorem default_construction_zero
    (cfg : config) (bo : byte_order) (sizeof_jmp_buf : nat) :
  (forall k, reg_init k bo = replicate (sizeof_r k bo) Byte.x00) /\
  (forall k v, read_val k bo v (reg_init k bo) = (fun _ => 0) <$> union_r k bo v) /\
  let p := processor_init cfg bo sizeof_jmp_buf in
  pc p = 0 /\
  length (ireg p) = Z.to_nat (ireg_count cfg) /\
  length (freg p) = Z.to_nat (freg_count cfg) /\
  (forall i v,
     read_ireg cfg bo i v p =
       if decide (i < Z.to_nat (ireg_count cfg))%nat
       then (fun _ => 0) <$> union_r (IREG cfg) bo v else None) /\
  (forall i v,
     read_freg cfg bo i v p =
       if decide (i < Z.to_nat (freg_count cfg))%nat
       then (fun _ => 0) <$> union_r (FREG cfg) bo v else None) /\
  node_id p = 0 /\ hart_id p = 0 /\ log p = 0 /\ badaddr p = 0 /\
  time p = 0 /\ cycle p = 0 /\ instret p = 0 /\ fcsr p = 0 /\
  lr p mod 2 ^ bitsof (SX cfg) = Z.ones (bitsof (SX cfg)) /\
  (if is_signed (SX cfg) then lr p = -1 else lr p = Z.ones (bitsof (SX cfg))).
Proof.
  split; [done|]. split; [intros; apply read_val_reg_init|].
  simpl. rewrite !length_replicate, !convert_0.
  repeat split; try done.
  - intros i v. unfold read_ireg. simpl. case_decide as Hi.
    + rewrite lookup_replicate_2 by done. apply read_val_reg_init.
    + by rewrite lookup_ge_None_2 by (rewrite length_replicate; lia).
  - intros i v. unfold read_freg. simpl. case_decide as Hi.
    + rewrite lookup_replicate_2 by done. apply read_val_reg_init.
    + by rewrite lookup_ge_None_2 by (rewrite length_replicate; lia).
  - apply convert_minus_1_bits.
  - by destruct (SX cfg).
Qed.

(** C3. The dimensions of the two provided configurations: [xlen], derived
    from [sizeof(ux)], is 32 resp. 64; both have 32 integer and 32
    floating-point registers, of type [freg_fp64]; the derived width agrees
    with the [xlen] of the integer register type, and the register arrays
    of a constructed processor have [ireg_count] and [freg_count]
    elements. *)
Theorem derived_constants :
  (forall cfg, xlen cfg = bitsof (UX cfg) /\
               ireg_count cfg = IREG_COUNT cfg /\
               freg_count cfg = FREG_COUNT cfg) /\
  xlen processor_rv32imafd = 32 /\
  ireg_count processor_rv32imafd = 32 /\
  freg_count processor_rv32imafd = 32 /\
  xlen processor_rv64imafd = 64 /\
  ireg_count processor_rv64imafd = 32 /\
  freg_count processor_rv64imafd = 32 /\
  FREG processor_rv32imafd = freg_fp64 /\
  FREG processor_rv64imafd = freg_fp64 /\
  reg_xlen freg_fp64 = 64 /\
  reg_xlen (IREG processor_rv32imafd) = xlen processor_rv32imafd /\
  reg_xlen (IREG processor_rv64imafd) = xlen processor_rv64imafd /\
  (forall bo jb,
     length (ireg (processor_init processor_rv32imafd bo jb)) = 32%nat /\
     length (freg (processor_init processor_rv32imafd bo jb)) = 32%nat /\
     length (ireg (processor_init processor_rv64imafd bo jb)) = 32%nat /\
     length (freg (processor_init processor_rv64imafd bo jb)) = 32%nat).
Proof.
  split.
  { intros cfg. unfold xlen, bitsof. rewrite Z.shiftl_mul_pow2 by lia.
    repeat split; lia. }
  repeat split; try reflexivity; simpl; by rewrite length_replicate.
Qed.

(** C4. On a little-endian host, in a freshly constructed 64-bit
    processor: after [ireg[5] = -1] the view [ireg[5].r.bu.val] reads 255,
    and after [pc = 0x80000000] the program counter reads 0x80000000, a
    value of the unsigned 64-bit range. *)
Theorem scenario_rv64_little_endian (sizeof_jmp_buf : nat) :
  let cfg := processor_rv64imafd in
  let p0 := processor_init cfg LITTLE_ENDIAN sizeof_jmp_buf in
  exists p1 p2,
    mutate cfg LITTLE_ENDIAN (assign_ireg 5 (-1)) p0 = Some p1 /\
    read_ireg cfg LITTLE_ENDIAN 5 r.bu p1 = Some 255 /\
    mutate cfg LITTLE_ENDIAN (assign_pc 0x80000000) p1 = Some p2 /\
    pc p2 = 0x80000000 /\
    0 <= pc p2 < 2 ^ xlen cfg /\
    read_ireg cfg LITTLE_ENDIAN 5 r.bu p2 = Some 255.
Proof.
  intros cfg p0. eexists _, _.
  split; [reflexivity|]. split; [reflexivity|].
  split; [reflexivity|]. split; [reflexivity|].
  split; [by vm_compute|reflexivity].
Qed.

(** ** The single-precision view of [freg_fp64] *)

Lemma host_combine_app bo lo hi :
  host_combine bo
    (match bo with LITTLE_ENDIAN => lo ++ hi | BIG_ENDIAN => hi ++ lo end) =
  Z.lor (host_combine bo lo)
    (Z.shiftl (host_combine bo hi) (Z.of_nat (length lo) * 8)).
Proof.
  destruct bo; simpl; by rewrite ?rev_app_distr, le_combine_app, ?length_rev.
Qed.

Lemma lor_shiftl_low a b n :
  0 <= n -> Z.land (Z.lor (a mod 2 ^ n) (Z.shiftl b n)) (Z.ones n) = a mod 2 ^ n.
Proof.
  intros Hn. assert (2 ^ n <> 0) by (apply Z.pow_nonzero; lia).
  rewrite Z.land_lor_distr_l, !Z.land_ones, Z.shiftl_mul_pow2 by lia.
  by rewrite Z.mod_mul, Z.lor_0_r, Z.mod_mod.
Qed.

Lemma lor_shiftl_high a b n :
  0 <= n -> Z.shiftr (Z.lor (a mod 2 ^ n) (Z.shiftl b n)) n = b.
Proof.
  intros Hn. assert (0 < 2 ^ n) by (apply Z.pow_pos_nonneg; lia).
  rewrite Z.shiftr_lor, Z.shiftr_shiftl_l, Z.sub_diag, Z.shiftl_0_r by lia.
  rewrite Z.shiftr_div_pow2, Z.div_small, Z.lor_0_l; [done| |lia].
  apply Z.mod_pos_bound. lia.
Qed.

(** The cell after [r.s.val = z], and what the full-width view then reads:
    the written pattern in the low-order half, the former content of
    [r.s.pad] in the high-order half. *)
Lemma fp64_single_write bo z c :
  length c = sizeof_r freg_fp64 bo ->
  exists c' p,
    write_val freg_fp64 bo r.s z c = Some c' /\
    length c' = length c /\
    read_pad freg_fp64 bo r.s 0 c = Some p /\
    read_pad freg_fp64 bo r.s 0 c' = Some p /\
    read_val freg_fp64 bo r.lu c' =
      Some (Z.lor (z mod 2 ^ 32) (Z.shiftl p 32)).
Proof.
  intros Hc.
  assert (length c = 8%nat) as Hc8 by (by destruct bo).
  set (lo := host_split bo 4 z).
  set (hi := match bo with LITTLE_ENDIAN => drop 4 c | BIG_ENDIAN => take 4 c end).
  set (c' := match bo with LITTLE_ENDIAN => lo ++ hi | BIG_ENDIAN => hi ++ lo end).
  assert (length lo = 4%nat) as Hlo by apply length_host_split.
  assert (length hi = 4%nat) as Hhi.
  { subst hi. destruct bo; [rewrite length_drop|rewrite length_take]; lia. }
  assert (length c' = 8%nat) as Hc'.
  { subst c'. destruct bo; rewrite length_app; lia. }
  assert (write_val freg_fp64 bo r.s z c = Some c') as Hw.
  { trans (Some (store bo f32 (low_offset bo 8 4) z c)); [by destruct bo|].
    f_equal. unfold store. subst c' lo hi. destruct bo.
    - by rewrite take_0.
    - by rewrite (drop_ge c) by (simpl; lia); rewrite app_nil_r. }
  assert (forall m, length m = 8%nat ->
            (match bo with LITTLE_ENDIAN => drop 4 m | BIG_ENDIAN => take 4 m end) = hi ->
            read_pad freg_fp64 bo r.s 0 m = Some (host_combine bo hi)) as Hp.
  { intros m Hm <-.
    trans (Some (load bo u32 (4 - low_offset bo 8 4) m)); [by destruct bo|].
    f_equal. unfold load. change (of_bits u32 ?a) with a. f_equal.
    destruct bo; [|done]. apply take_ge. rewrite length_drop. simpl. lia. }
  exists c', (host_combine bo hi).
  split; [done|]. split; [lia|]. split; [by apply Hp|]. split.
  - apply Hp; [done|]. subst c'. destruct bo.
    + by rewrite drop_app_length' by done.
    + by rewrite take_app_length' by done.
  - trans (Some (load bo u64 0 c')); [by destruct bo|].
    f_equal. unfold load. change (of_bits u64 ?a) with a.
    rewrite drop_0, take_ge by (simpl; lia).
    subst c'. rewrite host_combine_app, Hlo. subst lo.
    by rewrite host_combine_split.
Qed.

(** After [r.s.val = z] the high-order half of [r.lu.val] is what
    [r.s.pad] held before the write. *)
Lemma fp64_single_write_high_bits bo z c :
  length c = sizeof_r freg_fp64 bo ->
  exists c' p u,
    write_val freg_fp64 bo r.s z c = Some c' /\
    read_pad freg_fp64 bo r.s 0 c = Some p /\
    read_val freg_fp64 bo r.lu c' = Some u /\
    Z.shiftr u 32 = p.
Proof.
  intros Hc.
  destruct (fp64_single_write bo z c Hc) as (c' & p & Hw & _ & Hp & _ & Hr).
  exists c', p, (Z.lor (z mod 2 ^ 32) (Z.shiftl p 32)).
  repeat split; try done. by apply lor_shiftl_high.
Qed.

(** C5 (as the code has it). Writing the 32-bit pattern [b] through
    [r.s.val] and reading the register through [r.lu.val] shows [b] in the
    low-order 32 bits on hosts of either byte order.  The bytes of [b] lie
    at byte offset 0 on a little-endian host and at byte offset 4 on a
    big-endian host, which is also where [r.w.val] and [r.wu.val] lie, and
    [r.wu.val] reads [b] back. *)
Theorem fp64_single_write_low_bits (bo : byte_order) (b : Z) (c : reg) :
  0 <= b < 2 ^ 32 ->
  length c = sizeof_r freg_fp64 bo ->
  let off := match bo with LITTLE_ENDIAN => 0%nat | BIG_ENDIAN => 4%nat end in
  exists c' u,
    write_val freg_fp64 bo r.s b c = Some c' /\
    read_val freg_fp64 bo r.lu c' = Some u /\
    Z.land u (Z.ones 32) = b /\
    locate freg_fp64 bo r.s val = Some (off, scalar f32 val) /\
    locate freg_fp64 bo r.w val = Some (off, scalar s32 val) /\
    locate freg_fp64 bo r.wu val = Some (off, scalar u32 val) /\
    take 4 (drop off c') = host_split bo 4 b /\
    read_val freg_fp64 bo r.wu c' = Some b.
Proof.
  intros Hb Hc off.
  destruct (fp64_single_write bo b c Hc) as (c' & p & Hw & Hlen & _ & _ & Hr).
  exists c', (Z.lor (b mod 2 ^ 32) (Z.shiftl p 32)).
  split; [done|]. split; [done|].
  split; [rewrite lor_shiftl_low by lia; by apply Z.mod_small|].
  assert (length c = 8%nat) as Hc8 by (by destruct bo).
  assert (write_val freg_fp64 bo r.s b c = Some (store bo f32 off b c)) as Hs
    by (by destruct bo).
  assert (c' = store bo f32 off b c) as -> by congruence.
  split; [by destruct bo|]. split; [by destruct bo|]. split; [by destruct bo|].
  split.
  - unfold store.
    rewrite drop_app_length'
      by (rewrite length_take, Hc8; subst off; destruct bo; simpl; lia).
    apply take_app_length'. by rewrite length_host_split.
  - trans (Some (load bo u32 off (store bo f32 off b c))); [by destruct bo|].
    rewrite load_store; [|done|rewrite Hc8; subst off; destruct bo; simpl; lia].
    f_equal. rewrite convert_unsigned by done. by apply Z.mod_small.
Qed.

Lemma fp64_single_write_low_bits_witness :
  exists c' u,
    write_val freg_fp64 BIG_ENDIAN r.s 0x3f800000
      (reg_init freg_fp64 BIG_ENDIAN) = Some c' /\
    read_val freg_fp64 BIG_ENDIAN r.lu c' = Some u /\
    Z.land u (Z.ones 32) = 0x3f800000 /\
    locate freg_fp64 BIG_ENDIAN r.s val = Some (4%nat, scalar f32 val) /\
    locate freg_fp64 BIG_ENDIAN r.w val = Some (4%nat, scalar s32 val) /\
    locate freg_fp64 BIG_ENDIAN r.wu val = Some (4%nat, scalar u32 val) /\
    take 4 (drop 4 c') = host_split BIG_ENDIAN 4 0x3f800000 /\
    read_val freg_fp64 BIG_ENDIAN r.wu c' = Some 0x3f800000.
Proof.
  apply (fp64_single_write_low_bits BIG_ENDIAN 0x3f800000
           (reg_init freg_fp64 BIG_ENDIAN)).
  - lia.
  - reflexivity.
Defined.

(** C5 (as claimed) fails on a big-endian host: after writing the pattern 1
    through [r.s.val] into a zeroed register, the high-order 32 bits of
    [r.lu.val] are not 1 (the register reads 1). *)
Lemma fp64_single_write_big_endian_not_high :
  ~ (exists c' u,
       write_val freg_fp64 BIG_ENDIAN r.s 1 (reg_init freg_fp64 BIG_ENDIAN)
         = Some c' /\
       read_val freg_fp64 BIG_ENDIAN r.lu c' = Some u /\
       Z.shiftr u 32 = 1).
Proof.
  intros (c' & u & Hw & Hr & Hu).
  vm_compute in Hw. injection Hw as <-.
  vm_compute in Hr. injection Hr as <-.
  discriminate Hu.
Qed.

(** C6. [r.s.val = z] changes the four bytes of [r.s.val] only: the cell
    keeps its size, every byte outside the range of [r.s.val] keeps its
    value, these are the bytes of [r.s.pad], and [r.s.pad] reads what it
    read before. *)
Theorem fp64_single_write_frame (bo : byte_order) (z : Z) (c : reg) :
  length c = sizeof_r freg_fp64 bo ->
  let off := match bo with LITTLE_ENDIAN => 0%nat | BIG_ENDIAN => 4%nat end in
  exists c',
    write_val freg_fp64 bo r.s z c = Some c' /\
    length c' = length c /\
    locate freg_fp64 bo r.s val = Some (off, scalar f32 val) /\
    locate freg_fp64 bo r.s pad = Some ((4 - off)%nat, scalar u32 pad) /\
    (forall i, (i < off \/ off + 4 <= i)%nat -> c' !! i = c !! i) /\
    read_pad freg_fp64 bo r.s 0 c' = read_pad freg_fp64 bo r.s 0 c /\
    take 4 (drop (4 - off) c') = take 4 (drop (4 - off) c).
Proof.
  intros Hc off.
  destruct (fp64_single_write bo z c Hc) as (c' & p & Hw & Hlen & Hp & Hp' & _).
  assert (length c = 8%nat) as Hc8 by (by destruct bo).
  assert (write_val freg_fp64 bo r.s z c = Some (store bo f32 off z c)) as Hs
    by (by destruct bo).
  assert (c' = store bo f32 off z c) as Hc' by congruence.
  assert (forall i, (i < off \/ off + 4 <= i)%nat -> c' !! i = c !! i) as Hframe.
  { intros i Hi. rewrite Hc'. apply store_lookup_other; [|done].
    rewrite Hc8. subst off. destruct bo; simpl; lia. }
  exists c'. split; [done|]. split; [done|].
  split; [by destruct bo|]. split; [by destruct bo|].
  split; [done|]. split; [congruence|].
  apply list_eq. intros i. destruct (decide (i < 4)%nat) as [Hi|Hi].
  - rewrite !lookup_take_lt, !lookup_drop by done. apply Hframe.
    subst off. destruct bo; lia.
  - by rewrite !lookup_take_ge by lia.
Qed.

Lemma fp64_single_write_frame_witness :
  exists c',
    write_val freg_fp64 LITTLE_ENDIAN r.s 0x3f800000
      (host_split LITTLE_ENDIAN 8 (-1)) = Some c' /\
    length c' = length (host_split LITTLE_ENDIAN 8 (-1)) /\
    locate freg_fp64 LITTLE_ENDIAN r.s val = Some (0%nat, scalar f32 val) /\
    locate freg_fp64 LITTLE_ENDIAN r.s pad = Some (4%nat, scalar u32 pad) /\
    (forall i, (i < 0 \/ 0 + 4 <= i)%nat ->
               c' !! i = host_split LITTLE_ENDIAN 8 (-1) !! i) /\
    read_pad freg_fp64 LITTLE_ENDIAN r.s 0 c' =
      read_pad freg_fp64 LITTLE_ENDIAN r.s 0 (host_split LITTLE_ENDIAN 8 (-1)) /\
    take 4 (drop 4 c') = take 4 (drop 4 (host_split LITTLE_ENDIAN 8 (-1))).
Proof.
  apply (fp64_single_write_frame LITTLE_ENDIAN 0x3f800000
           (host_split LITTLE_ENDIAN 8 (-1))).
  reflexivity.
Defined.

(** ** Pointer conversions of the integer registers *)

Lemma mod_pow2_mod_pow2 a n m :
  0 <= n <= m -> (a mod 2 ^ m) mod 2 ^ n = a mod 2 ^ n.
Proof.
  intros Hnm. apply Z.mod_mod_divide.
  exists (2 ^ (m - n)). rewrite <- Z.pow_add_r by lia. f_equal. lia.
Qed.

(** After [reg = z], [operator s32*] yields the address made of the [s32]
    value of the view [r.w]. *)
Lemma ireg_to_s32p_after_assign k bo ptr_bits z c :
  is_ireg k = true -> length c = sizeof_r k bo ->
  ireg_assign k bo z c ≫= ireg_to_s32p k bo ptr_bits =
    Some (reinterpret_cast ptr_bits (convert s32 z)).
Proof.
  intros Hk Hc. rewrite ireg_assign_whole by done. simpl.
  unfold ireg_to_s32p. rewrite Hk.
  trans (reinterpret_cast ptr_bits <$>
           Some (load bo s32 (low_offset bo (sizeof_r k bo) (sizeof s32))
                   (host_split bo (sizeof_r k bo) z)));
    [by destruct k, bo|].
  simpl. do 2 f_equal. apply load_low. by destruct k, bo; vm_compute; lia.
Qed.

(** After [reg = z], [operator s64*] of [ireg_rv64] yields the address made
    of the [s64] value of the view [r.l]. *)
Lemma ireg_to_s64p_after_assign bo ptr_bits z c :
  length c = sizeof_r ireg_rv64 bo ->
  ireg_assign ireg_rv64 bo z c ≫= ireg_to_s64p ireg_rv64 bo ptr_bits =
    Some (reinterpret_cast ptr_bits (convert s64 z)).
Proof.
  intros Hc. rewrite ireg_assign_whole by done. simpl.
  trans (reinterpret_cast ptr_bits <$>
           Some (load bo s64 (low_offset bo (sizeof_r ireg_rv64 bo) (sizeof s64))
                   (host_split bo (sizeof_r ireg_rv64 bo) z)));
    [by destruct bo|].
  simpl. do 2 f_equal. apply load_low. by destruct bo; vm_compute; lia.
Qed.

(** Where the pointer is at least as wide as the register, the conversion
    that reads the full-width view — [operator s32*] of [ireg_rv32],
    [operator s64*] of [ireg_rv64] — yields an address whose low-order
    [xlen] bits are the bits of the register. *)
Lemma ireg_rv32_to_s32p_exposes_register bo ptr_bits z c a :
  reg_xlen ireg_rv32 <= ptr_bits ->
  length c = sizeof_r ireg_rv32 bo ->
  ireg_assign ireg_rv32 bo z c ≫= ireg_to_s32p ireg_rv32 bo ptr_bits = Some a ->
  a mod 2 ^ reg_xlen ireg_rv32 = z mod 2 ^ reg_xlen ireg_rv32.
Proof.
  intros Hp Hc. rewrite ireg_to_s32p_after_assign by done. intros [= <-].
  unfold reinterpret_cast. change (reg_xlen ireg_rv32) with 32 in *.
  rewrite mod_pow2_mod_pow2 by lia. apply (convert_mod s32).
Qed.

Lemma ireg_rv64_to_s64p_exposes_register bo ptr_bits z c a :
  reg_xlen ireg_rv64 <= ptr_bits ->
  length c = sizeof_r ireg_rv64 bo ->
  ireg_assign ireg_rv64 bo z c ≫= ireg_to_s64p ireg_rv64 bo ptr_bits = Some a ->
  a mod 2 ^ reg_xlen ireg_rv64 = z mod 2 ^ reg_xlen ireg_rv64.
Proof.
  intros Hp Hc. rewrite ireg_to_s64p_after_assign by done. intros [= <-].
  unfold reinterpret_cast. change (reg_xlen ireg_rv64) with 64 in *.
  rewrite mod_pow2_mod_pow2 by lia. apply (convert_mod s64).
Qed.

(** [operator s32*] of [ireg_rv64] does not tell apart two registers that
    agree on their low-order word. *)
Lemma ireg_rv64_to_s32p_low_word bo ptr_bits z z' c :
  length c = sizeof_r ireg_rv64 bo ->
  z mod 2 ^ 32 = z' mod 2 ^ 32 ->
  ireg_assign ireg_rv64 bo z c ≫= ireg_to_s32p ireg_rv64 bo ptr_bits =
  ireg_assign ireg_rv64 bo z' c ≫= ireg_to_s32p ireg_rv64 bo ptr_bits.
Proof.
  intros Hc Hz. rewrite !ireg_to_s32p_after_assign by done.
  unfold convert. change (bitsof s32) with 32. by rewrite Hz.
Qed.

(** The other conversion of [ireg_rv64]: an [ireg_rv64] assigned [2 ^ 32]
    holds [2 ^ 32], yet its [operator s32*], which reads the 32-bit view
    [r.w], yields the null address on every host, as it does for a zeroed
    register; [operator s64*], which reads the full-width view [r.l],
    yields the address [2 ^ 32] where pointers have 64 bits. *)
Lemma ireg_rv64_operator_s32p_truncates (bo : byte_order) (ptr_bits : Z) :
  exists c',
    ireg_assign ireg_rv64 bo (2 ^ 32) (reg_init ireg_rv64 bo) = Some c' /\
    ireg_to_sx ireg_rv64 bo c' = Some (2 ^ 32) /\
    ireg_to_s32p ireg_rv64 bo ptr_bits c' = Some 0 /\
    ireg_to_s32p ireg_rv64 bo ptr_bits (reg_init ireg_rv64 bo) = Some 0 /\
    ireg_to_s64p ireg_rv64 bo 64 c' = Some (2 ^ 32).
Proof.
  destruct bo; eexists; (split; [reflexivity|]); repeat split; reflexivity.
Qed.

(** ** The representation invariant *)

Lemma convert_idemp t z : in_range t (convert t z).
Proof. unfold in_range, convert at 1. by rewrite convert_mod. Qed.

Lemma in_range_unsigned t z :
  is_signed t = false -> in_range t z -> 0 <= z < 2 ^ bitsof t.
Proof.
  intros Ht Hz. pose proof (convert_range t z) as Hr.
  rewrite Ht in Hr. by rewrite Hz in Hr.
Qed.

Lemma length_write_val k bo v z c c' :
  length c = sizeof_r k bo -> write_val k bo v z c = Some c' ->
  length c' = sizeof_r k bo.
Proof.
  intros Hc. unfold write_val, locate.
  destruct (union_r k bo v) as [st|] eqn:Hst; [|done]. simpl.
  destruct (offsetof val st) as [[off f]|] eqn:Hoff; [|done]. simpl.
  intros [= <-].
  destruct (val_naturally_aligned k bo v st off f Hst Hoff) as (_ & Hle & _).
  rewrite length_store; lia.
Qed.

Lemma processor_init_wf cfg bo jb : wf_processor cfg bo (processor_init cfg bo jb).
Proof.
  split; simpl; try apply convert_idemp; try apply length_replicate;
    apply Forall_replicate, length_reg_init.
Qed.

Lemma mutate_wf cfg bo m p p' :
  wf_processor cfg bo p -> mutate cfg bo m p = Some p' -> wf_processor cfg bo p'.
Proof.
  intros [Hpc Hic Hi Hfc Hf Hn Hh Hl Hlr Hb Ht Hc Hr Hs] Hm.
  destruct m; simpl in Hm; unfold ireg_assign in Hm; simplify_option_eq;
    split; simpl; try done; try apply convert_idemp;
    try (by rewrite length_insert);
    (apply Forall_insert; [done|]).
  - destruct (is_ireg (IREG cfg)); [|done].
    eapply length_write_val; [|eassumption]. by eapply Forall_lookup_1 in Hi.
  - eapply length_write_val; [|eassumption]. by eapply Forall_lookup_1 in Hi.
  - eapply length_write_val; [|eassumption]. by eapply Forall_lookup_1 in Hf.
Qed.

Lemma reachable_wf cfg bo jb p : reachable cfg bo jb p -> wf_processor cfg bo p.
Proof.
  induction 1 as [|p m p' _ IH Hm]; [apply processor_init_wf|].
  by eapply mutate_wf.
Qed.

(** A write to a declared view of an existing register is defined. *)
Lemma write_ireg_defined cfg bo i v z p :
  wf_processor cfg bo p ->
  (i < Z.to_nat (ireg_count cfg))%nat -> is_Some (union_r (IREG cfg) bo v) ->
  is_Some (mutate cfg bo (write_ireg i v z) p).
Proof.
  intros [] Hi Hv. simpl.
  destruct (lookup_lt_is_Some_2 (ireg p) i) as [c Hc]; [lia|].
  rewrite Hc. simpl. apply val_declared in Hv as [[off f] Hl].
  unfold write_val. rewrite Hl. simpl. eauto.
Qed.

Lemma write_freg_defined cfg bo i v z p :
  wf_processor cfg bo p ->
  (i < Z.to_nat (freg_count cfg))%nat -> is_Some (union_r (FREG cfg) bo v) ->
  is_Some (mutate cfg bo (write_freg i v z) p).
Proof.
  intros [] Hi Hv. simpl.
  destruct (lookup_lt_is_Some_2 (freg p) i) as [c Hc]; [lia|].
  rewrite Hc. simpl. apply val_declared in Hv as [[off f] Hl].
  unfold write_val. rewrite Hl. simpl. eauto.
Qed.

Lemma assign_ireg_defined cfg bo i z p :
  wf_processor cfg bo p ->
  (i < Z.to_nat (ireg_count cfg))%nat -> is_ireg (IREG cfg) = true ->
  is_Some (mutate cfg bo (assign_ireg i z) p).
Proof.
  intros Hwf Hi Hk.
  destruct (write_ireg_defined cfg bo i r.x z p Hwf Hi) as [p' Hp'].
  { by destruct (IREG cfg), bo. }
  exists p'. simpl in *. unfold ireg_assign. by rewrite Hk.
Qed.

(** ** Logging flags *)

Lemma log_enabled_testbit i lg :
  0 <= i -> log_enabled (Z.shiftl 1 i) lg = Z.testbit lg i.
Proof.
  intros Hi. unfold log_enabled. rewrite Z.shiftl_1_l.
  assert (Z.land lg (2 ^ i) = if Z.testbit lg i then 2 ^ i else 0) as ->.
  { apply Z.bits_inj'. intros n Hn.
    rewrite Z.land_spec, Z.pow2_bits_eqb by done.
    destruct (Z.eqb_spec i n) as [->|Hne].
    - rewrite andb_true_r. destruct (Z.testbit lg n) eqn:Hb.
      + by rewrite Z.pow2_bits_true.
      + by rewrite Z.bits_0.
    - rewrite andb_false_r. destruct (Z.testbit lg i).
      + by rewrite Z.pow2_bits_false.
      + by rewrite Z.bits_0. }
  destruct (Z.testbit lg i); [|done].
  assert (0 < 2 ^ i) by (apply Z.pow_pos_nonneg; lia).
  apply negb_true_iff, Z.eqb_neq. lia.
Qed.

Lemma proc_log_flags_bits f :
  f ∈ proc_log_flags -> exists i, 0 <= i < 9 /\ f = Z.shiftl 1 i.
Proof.
  unfold proc_log_flags. intros Hf.
  repeat (apply elem_of_cons in Hf as [->|Hf];
          [eexists; split; [|reflexivity]; lia|]).
  by apply elem_of_nil in Hf.
Qed.

Lemma testbit_log_enable i j lg :
  0 <= i -> 0 <= j ->
  Z.testbit (log_enable (Z.shiftl 1 i) lg) j = Z.testbit lg j || (i =? j).
Proof.
  intros Hi Hj. unfold log_enable.
  by rewrite Z.lor_spec, Z.shiftl_1_l, Z.pow2_bits_eqb.
Qed.

Lemma testbit_log_disable i j lg :
  0 <= i -> 0 <= j < 32 ->
  Z.testbit (log_disable (Z.shiftl 1 i) lg) j = Z.testbit lg j && negb (i =? j).
Proof.
  intros Hi Hj. unfold log_disable.
  rewrite Z.mod_pow2_bits_low by lia.
  rewrite Z.land_spec, Z.lnot_spec, Z.shiftl_1_l, Z.pow2_bits_eqb by lia.
  done.
Qed.

(** C9. The enumeration declares nine flags, the powers of two [2 ^ 0] to
    [2 ^ 8] in declaration order, so they are pairwise distinct and
    pairwise disjoint as bit masks.  In a 32-bit [log] word, enabling or
    disabling one flag [f] sets resp. clears [f], keeps the word a 32-bit
    value, and does not change whether another flag [g] is enabled. *)
Theorem log_flags_independent (f g lg : Z) :
  f ∈ proc_log_flags -> g ∈ proc_log_flags -> f <> g ->
  in_range u32 lg ->
  length proc_log_flags = 9%nat /\
  proc_log_flags = (fun i => 2 ^ i) <$> seqZ 0 9 /\
  NoDup proc_log_flags /\
  Z.land f g = 0 /\
  log_enabled f (log_enable f lg) = true /\
  log_enabled f (log_disable f lg) = false /\
  log_enabled g (log_enable f lg) = log_enabled g lg /\
  log_enabled g (log_disable f lg) = log_enabled g lg /\
  in_range u32 (log_enable f lg) /\
  in_range u32 (log_disable f lg).
Proof.
  intros Hf Hg Hfg Hlg.
  split; [done|]. split; [done|].
  split; [compute_done|].
  apply proc_log_flags_bits in Hf as (i & Hi & ->).
  apply proc_log_flags_bits in Hg as (j & Hj & ->).
  assert (i <> j) as Hij by congruence.
  assert ((i =? j) = false) as Hijb by by apply Z.eqb_neq.
  assert ((i =? i) = true) as Hiib by by apply Z.eqb_eq.
  apply (in_range_unsigned u32) in Hlg; [|done]. change (bitsof u32) with 32 in Hlg.
  rewrite !log_enabled_testbit by lia.
  rewrite !testbit_log_enable, !testbit_log_disable by lia.
  rewrite Hijb, Hiib, orb_true_r, orb_false_r, andb_false_r, andb_true_r.
  assert (forall x, 0 <= x < 2 ^ 32 -> in_range u32 x) as Hin.
  { intros x Hx. unfold in_range. rewrite convert_unsigned by done.
    by apply Z.mod_small. }
  repeat split.
  - apply Z.bits_inj'. intros n Hn.
    rewrite Z.land_spec, !Z.shiftl_1_l, !Z.pow2_bits_eqb, Z.bits_0 by lia.
    destruct (Z.eqb_spec i n), (Z.eqb_spec j n); try done. lia.
  - apply Hin. unfold log_enable. split.
    + apply Z.lor_nonneg. split; [lia|]. rewrite Z.shiftl_1_l. apply Z.pow_nonneg. lia.
    + apply Z.log2_lt_cancel. rewrite Z.log2_lor, Z.log2_pow2 by (try apply Z.shiftl_nonneg; lia).
      rewrite Z.shiftl_1_l, Z.log2_pow2 by lia.
      destruct (decide (lg = 0)) as [->|]; [simpl; lia|].
      assert (Z.log2 lg < 32) by (apply Z.log2_lt_pow2; lia). lia.
  - apply Hin. unfold log_disable. apply Z.mod_pos_bound. lia.
Qed.

Lemma log_flags_independent_witness :
  log_enabled proc_log_int_reg (log_enable proc_log_inst 6) =
  log_enabled proc_log_int_reg 6.
Proof.
  apply (log_flags_independent proc_log_inst proc_log_int_reg 6).
  - apply list_elem_of_In. simpl. tauto.
  - apply list_elem_of_In. simpl. tauto.
  - by vm_compute.
  - reflexivity.
Defined.

(** ** Hart identity *)

(** C10. [node_id] and [hart_id] are [u16] members: in every state a
    processor can be brought into they hold a value between 0 and 65535,
    and an assignment of any integer [z] to either stores [z] modulo
    [2 ^ 16] and nothing else. *)
Theorem hart_identity_u16
    (cfg : config) (bo : byte_order) (sizeof_jmp_buf : nat) (p : processor)
    (z : Z) :
  reachable cfg bo sizeof_jmp_buf p ->
  0 <= node_id p <= 65535 /\
  0 <= hart_id p <= 65535 /\
  (exists p',
     mutate cfg bo (assign_node_id z) p = Some p' /\
     node_id p' = z mod 2 ^ 16 /\
     p' = with_node_id (z mod 2 ^ 16) p /\
     reachable cfg bo sizeof_jmp_buf p') /\
  (exists p',
     mutate cfg bo (assign_hart_id z) p = Some p' /\
     hart_id p' = z mod 2 ^ 16 /\
     p' = with_hart_id (z mod 2 ^ 16) p /\
     reachable cfg bo sizeof_jmp_buf p').
Proof.
  intros Hp. pose proof (reachable_wf _ _ _ _ Hp) as Hwf.
  pose proof (in_range_unsigned u16 _ eq_refl (wf_node_id _ _ _ Hwf)) as Hn.
  pose proof (in_range_unsigned u16 _ eq_refl (wf_hart_id _ _ _ Hwf)) as Hh.
  change (2 ^ bitsof u16) with 65536 in *.
  split; [lia|]. split; [lia|]. split.
  - exists (with_node_id (z mod 2 ^ 16) p). repeat split.
    by eapply reachable_step with (m := assign_node_id z).
  - exists (with_hart_id (z mod 2 ^ 16) p). repeat split.
    by eapply reachable_step with (m := assign_hart_id z).
Qed.

Lemma hart_identity_u16_witness :
  0 <= node_id (processor_init processor_rv32imafd BIG_ENDIAN 0) <= 65535 /\
  0 <= hart_id (processor_init processor_rv32imafd BIG_ENDIAN 0) <= 65535 /\
  (exists p',
     mutate processor_rv32imafd BIG_ENDIAN (assign_node_id 65537)
       (processor_init processor_rv32imafd BIG_ENDIAN 0) = Some p' /\
     node_id p' = 65537 mod 2 ^ 16 /\
     p' = with_node_id (65537 mod 2 ^ 16)
            (processor_init processor_rv32imafd BIG_ENDIAN 0) /\
     reachable processor_rv32imafd BIG_ENDIAN 0 p') /\
  (exists p',
     mutate processor_rv32imafd BIG_ENDIAN (assign_hart_id 65537)
       (processor_init processor_rv32imafd BIG_ENDIAN 0) = Some p' /\
     hart_id p' = 65537 mod 2 ^ 16 /\
     p' = with_hart_id (65537 mod 2 ^ 16)
            (processor_init processor_rv32imafd BIG_ENDIAN 0) /\
     reachable processor_rv32imafd BIG_ENDIAN 0 p').
Proof.
  apply (hart_identity_u16 processor_rv32imafd BIG_ENDIAN 0
           (processor_init processor_rv32imafd BIG_ENDIAN 0) 65537).
  apply reachable_init.
Defined.

(** * Further properties of the register unions *)

(** ** A register as a number *)

(** [host_combine bo c] is the register [c] read as one unsigned scalar of
    its full size.  The lemmas below describe loads and stores at the
    low-order position in terms of this number. *)


Lemma le_combine_drop n l :
  (n <= length l)%nat ->
  le_combine (drop n l) = Z.shiftr (le_combine l) (Z.of_nat n * 8).
Proof.
  intros Hn. rewrite <- (take_drop n l) at 2.
  rewrite le_combine_app, length_take, Nat.min_l by done.
  pose proof (le_combine_bound (take n l)) as Hb.
  rewrite length_take, Nat.min_l in Hb by done.
  rewrite <- (Z.mod_small (le_combine (take n l)) (2 ^ (Z.of_nat n * 8)))
    by (by rewrite Z.mul_comm).
  symmetry. apply lor_shiftl_high. lia.
Qed.

Lemma le_combine_replace_low n z l :
  (n <= length l)%nat ->
  le_combine (le_split n z ++ drop n l) =
  Z.lor (z mod 2 ^ (Z.of_nat n * 8))
    (Z.shiftl (Z.shiftr (le_combine l) (Z.of_nat n * 8)) (Z.of_nat n * 8)).
Proof.
  intros Hn.
  by rewrite le_combine_app, le_combine_split, length_le_split, le_combine_drop.
Qed.

(** A load at the low-order position reads the low-order bits. *)
Lemma load_low_value bo t c :
  (sizeof t <= length c)%nat ->
  load bo t (low_offset bo (length c) (sizeof t)) c =
  of_bits t (host_combine bo c mod 2 ^ bitsof t).
Proof.
  intros Hn. unfold load, bitsof. f_equal. destruct bo; simpl.
  - rewrite drop_0. apply le_combine_firstn.
  - rewrite <- le_combine_firstn, firstn_rev. do 2 f_equal.
    apply take_ge. rewrite length_drop. lia.
Qed.

(** A store at the low-order position replaces the low-order bits and
    keeps the others. *)
Lemma host_combine_store_low bo t z c :
  (sizeof t <= length c)%nat ->
  host_combine bo (store bo t (low_offset bo (length c) (sizeof t)) z c) =
  Z.lor (z mod 2 ^ bitsof t)
    (Z.shiftl (Z.shiftr (host_combine bo c) (bitsof t)) (bitsof t)).
Proof.
  intros Hn. unfold store. rewrite <- !bitsof_sizeof.
  destruct bo; unfold host_combine, host_split, low_offset.
  - rewrite take_0. by apply le_combine_replace_low.
  - rewrite (drop_ge c) by lia. rewrite app_nil_r, rev_app_distr, rev_involutive.
    replace (rev (take (length c - sizeof t) c)) with (drop (sizeof t) (rev c))
      by (by rewrite skipn_rev).
    apply le_combine_replace_low. by rewrite length_rev.
Qed.

(** Every declared [val] lies at the low-order position of its register. *)
Lemma locate_val_low k bo v off f :
  locate k bo v val = Some (off, f) ->
  off = low_offset bo (sizeof_r k bo) (sizeof (f_type f)) /\
  (sizeof (f_type f) <= sizeof_r k bo)%nat.
Proof.
  intros Hl. unfold locate in *.
  destruct k, bo, v; simpl in Hl; simplify_eq; vm_compute; split; lia.
Qed.

Lemma read_val_located k bo v c off f :
  length c = sizeof_r k bo ->
  locate k bo v val = Some (off, f) ->
  (sizeof (f_type f) <= length c)%nat /\
  read_val k bo v c =
    Some (load bo (f_type f) (low_offset bo (length c) (sizeof (f_type f))) c).
Proof.
  intros Hc Hl. destruct (locate_val_low k bo v off f Hl) as [-> Hle].
  unfold read_val. rewrite Hl, Hc. by split.
Qed.

Lemma write_val_located k bo v z c off f :
  length c = sizeof_r k bo ->
  locate k bo v val = Some (off, f) ->
  (sizeof (f_type f) <= length c)%nat /\
  write_val k bo v z c =
    Some (store bo (f_type f)
            (low_offset bo (length c) (sizeof (f_type f))) z c).
Proof.
  intros Hc Hl. destruct (locate_val_low k bo v off f Hl) as [-> Hle].
  unfold write_val. rewrite Hl, Hc. by split.
Qed.

Lemma length_store_low bo t z c :
  (sizeof t <= length c)%nat ->
  length (store bo t (low_offset bo (length c) (sizeof t)) z c) = length c.
Proof. intros Hn. apply length_store. destruct bo; simpl; lia. Qed.

(** ** Layout of the unions *)

(** X1. In every union of the header and for either byte order, the [val]
    of a declared view is a scalar that occupies the low-order bytes of the
    register: offset 0 on a little-endian host, the last bytes on a
    big-endian host.  The register is [sizeof(ux)] bytes large, so the
    [xlen] (or [flen]) the struct declares is its size in bits, and a
    struct's [pad], where there is one, fills the rest of the register on
    the other side of [val]. *)
Theorem view_layout
    (k : regtype) (bo : byte_order) (v : r.view) (off : nat) (f : field) :
  locate k bo v val = Some (off, f) ->
  off = low_offset bo (sizeof_r k bo) (sizeof (f_type f)) /\
  f_len f = 1%nat /\
  (sizeof (f_type f) <= sizeof_r k bo)%nat /\
  sizeof_r k bo = sizeof (reg_ux k) /\
  reg_xlen k = 8 * Z.of_nat (sizeof_r k bo) /\
  match locate k bo v pad with
  | Some (poff, pf) =>
      (field_size pf + sizeof (f_type f) = sizeof_r k bo)%nat /\
      poff = match bo with
             | LITTLE_ENDIAN => sizeof (f_type f)
             | BIG_ENDIAN => 0%nat
             end
  | None => sizeof (f_type f) = sizeof_r k bo
  end.
Proof.
  intros Hl. unfold locate in *.
  destruct k, bo, v; simpl in Hl; simplify_eq; vm_compute; repeat split; lia.
Qed.

Lemma view_layout_witness :
  6%nat = low_offset BIG_ENDIAN (sizeof_r ireg_rv64 BIG_ENDIAN) (sizeof s16).
Proof.
  apply (view_layout ireg_rv64 BIG_ENDIAN r.h 6 (scalar s16 val)).
  reflexivity.
Defined.

(** ** Reads and writes through any view *)

(** X2. Reading any declared view of any register returns the low-order
    bits of the register, as many as the view's [val] has, read at the
    type of [val] (two's complement for the signed views). *)
Theorem read_val_low_bits
    (k : regtype) (bo : byte_order) (v : r.view) (c : reg) (off : nat)
    (f : field) :
  length c = sizeof_r k bo ->
  locate k bo v val = Some (off, f) ->
  read_val k bo v c =
    Some (of_bits (f_type f) (host_combine bo c mod 2 ^ bitsof (f_type f))).
Proof.
  intros Hc Hl.
  destruct (read_val_located k bo v c off f Hc Hl) as [Hle ->].
  f_equal. by apply load_low_value.
Qed.

Lemma read_val_low_bits_witness :
  read_val ireg_rv32 BIG_ENDIAN r.b (host_split BIG_ENDIAN 4 0x1234abcd) =
    Some (of_bits s8
            (host_combine BIG_ENDIAN (host_split BIG_ENDIAN 4 0x1234abcd)
               mod 2 ^ bitsof s8)).
Proof.
  apply (read_val_low_bits ireg_rv32 BIG_ENDIAN r.b
           (host_split BIG_ENDIAN 4 0x1234abcd) 3 (scalar s8 val)).
  - reflexivity.
  - reflexivity.
Defined.

(** X3. Writing [z] through any declared view of any register is defined,
    keeps the register's size, puts the low-order bits of [z] — as many as
    the view's [val] has — into the low-order bits of the register and
    keeps the register's remaining high-order bits. *)
Theorem write_val_merges
    (k : regtype) (bo : byte_order) (v : r.view) (z : Z) (c : reg)
    (off : nat) (f : field) :
  length c = sizeof_r k bo ->
  locate k bo v val = Some (off, f) ->
  exists c',
    write_val k bo v z c = Some c' /\
    length c' = length c /\
    host_combine bo c' =
      Z.lor (z mod 2 ^ bitsof (f_type f))
        (Z.shiftl (Z.shiftr (host_combine bo c) (bitsof (f_type f)))
           (bitsof (f_type f))).
Proof.
  intros Hc Hl.
  destruct (write_val_located k bo v z c off f Hc Hl) as [Hle ->].
  eexists. split; [done|]. split.
  - by apply length_store_low.
  - by apply host_combine_store_low.
Qed.

Lemma write_val_merges_witness :
  exists c',
    write_val ireg_rv64 BIG_ENDIAN r.hu 0x1ffff
      (host_split BIG_ENDIAN 8 (-1)) = Some c' /\
    length c' = length (host_split BIG_ENDIAN 8 (-1)) /\
    host_combine BIG_ENDIAN c' =
      Z.lor (0x1ffff mod 2 ^ bitsof u16)
        (Z.shiftl
           (Z.shiftr (host_combine BIG_ENDIAN (host_split BIG_ENDIAN 8 (-1)))
              (bitsof u16))
           (bitsof u16)).
Proof.
  apply (write_val_merges ireg_rv64 BIG_ENDIAN r.hu 0x1ffff
           (host_split BIG_ENDIAN 8 (-1)) 6 (scalar u16 val)).
  - reflexivity.
  - reflexivity.
Defined.

Lemma lor_shiftl_mod a h n m :
  0 <= m <= n -> Z.lor (a mod 2 ^ n) (Z.shiftl h n) mod 2 ^ m = a mod 2 ^ m.
Proof.
  intros Hm.
  rewrite <- (mod_pow2_mod_pow2 (Z.lor _ _) m n) by done.
  rewrite <- (Z.land_ones (Z.lor _ _) n) by lia.
  rewrite lor_shiftl_low by lia.
  by apply mod_pow2_mod_pow2.
Qed.

(** X4. What was written through one view is seen through every view that
    is not wider, as far as that view reaches: after [z] was written
    through a declared view, a declared view whose [val] has at most as
    many bits holds the low-order bits of [z], as many as its [val] has,
    and reads them at the type of its [val].  Here [z] and the value read
    are bit patterns where the view is a floating-point view ([r.s],
    [r.d]): the register reinterprets the bits, it converts nothing.  For
    an integer view the value read is [z] reduced to the range of the
    view's type.  This holds for the four register types, for either byte
    order and whatever the register held before. *)
Theorem write_then_read
    (k : regtype) (bo : byte_order) (vw vr : r.view) (z : Z) (c : reg)
    (ow or : nat) (fw fr : field) :
  length c = sizeof_r k bo ->
  locate k bo vw val = Some (ow, fw) ->
  locate k bo vr val = Some (or, fr) ->
  bitsof (f_type fr) <= bitsof (f_type fw) ->
  write_val k bo vw z c ≫= read_val k bo vr =
    Some (of_bits (f_type fr) (z mod 2 ^ bitsof (f_type fr))).
Proof.
  intros Hc Hw Hr Hb.
  destruct (write_val_located k bo vw z c ow fw Hc Hw) as [Hlw ->]. simpl.
  pose proof (length_store_low bo (f_type fw) z c Hlw) as Hlen.
  destruct (read_val_located k bo vr _ or fr (eq_trans Hlen Hc) Hr) as [Hlr ->].
  rewrite load_low_value by done.
  rewrite host_combine_store_low by done.
  do 2 f_equal.
  apply lor_shiftl_mod. pose proof (bitsof_pos (f_type fr)). lia.
Qed.

Lemma write_then_read_witness :
  write_val freg_fp64 BIG_ENDIAN r.d 0x400921fb54442d18
    (reg_init freg_fp64 BIG_ENDIAN) ≫= read_val freg_fp64 BIG_ENDIAN r.w =
  Some (of_bits s32 (0x400921fb54442d18 mod 2 ^ bitsof s32)).
Proof.
  apply (write_then_read freg_fp64 BIG_ENDIAN r.d r.w 0x400921fb54442d18
           (reg_init freg_fp64 BIG_ENDIAN) 0 4 (scalar f64 val) (scalar s32 val)).
  - reflexivity.
  - reflexivity.
  - reflexivity.
  - by vm_compute.
Defined.

(** The type of a view's [val] does not depend on the byte order. *)
Lemma locate_type_bo k v :
  (f_type ∘ snd) <$> locate k LITTLE_ENDIAN v val =
  (f_type ∘ snd) <$> locate k BIG_ENDIAN v val.
Proof. by destruct k, v. Qed.

Lemma read_val_host_independent k v c1 c2 :
  length c1 = sizeof_r k LITTLE_ENDIAN ->
  length c2 = sizeof_r k BIG_ENDIAN ->
  host_combine LITTLE_ENDIAN c1 = host_combine BIG_ENDIAN c2 ->
  read_val k LITTLE_ENDIAN v c1 = read_val k BIG_ENDIAN v c2.
Proof.
  intros H1 H2 Hv. pose proof (locate_type_bo k v) as Ht.
  destruct (locate k LITTLE_ENDIAN v val) as [[o1 f1]|] eqn:Hl1,
           (locate k BIG_ENDIAN v val) as [[o2 f2]|] eqn:Hl2;
    simpl in Ht; simplify_eq.
  - destruct (read_val_located _ _ _ _ _ _ H1 Hl1) as [? ->].
    destruct (read_val_located _ _ _ _ _ _ H2 Hl2) as [? ->].
    rewrite !load_low_value by done. by rewrite Hv, Ht.
  - unfold read_val. by rewrite Hl1, Hl2.
Qed.

(** X5. The byte order of the host does not show in the values.  Take a
    register on a little-endian host and one on a big-endian host that hold
    the same number.  Then every view reads the same value on both; a write
    of the same value through the same view is defined on both or on
    neither (the view is not declared), and afterwards the two registers
    again hold the same number, so that every view reads the same on
    both. *)
Theorem register_host_independent
    (k : regtype) (vw vr : r.view) (z : Z) (c1 c2 : reg) :
  length c1 = sizeof_r k LITTLE_ENDIAN ->
  length c2 = sizeof_r k BIG_ENDIAN ->
  host_combine LITTLE_ENDIAN c1 = host_combine BIG_ENDIAN c2 ->
  read_val k LITTLE_ENDIAN vr c1 = read_val k BIG_ENDIAN vr c2 /\
  match write_val k LITTLE_ENDIAN vw z c1, write_val k BIG_ENDIAN vw z c2 with
  | Some c1', Some c2' =>
      length c1' = sizeof_r k LITTLE_ENDIAN /\
      length c2' = sizeof_r k BIG_ENDIAN /\
      host_combine LITTLE_ENDIAN c1' = host_combine BIG_ENDIAN c2' /\
      read_val k LITTLE_ENDIAN vr c1' = read_val k BIG_ENDIAN vr c2'
  | None, None => locate k LITTLE_ENDIAN vw val = None
  | _, _ => False
  end.
Proof.
  intros H1 H2 Hv. split; [by apply read_val_host_independent|].
  pose proof (locate_type_bo k vw) as Ht.
  destruct (locate k LITTLE_ENDIAN vw val) as [[o1 f1]|] eqn:Hl1,
           (locate k BIG_ENDIAN vw val) as [[o2 f2]|] eqn:Hl2;
    simpl in Ht; simplify_eq.
  - destruct (write_val_located _ _ _ z _ _ _ H1 Hl1) as [Hs1 ->].
    destruct (write_val_located _ _ _ z _ _ _ H2 Hl2) as [Hs2 ->].
    pose proof (length_store_low LITTLE_ENDIAN (f_type f1) z c1 Hs1) as Hn1.
    pose proof (length_store_low BIG_ENDIAN (f_type f2) z c2 Hs2) as Hn2.
    assert (host_combine LITTLE_ENDIAN
              (store LITTLE_ENDIAN (f_type f1)
                 (low_offset LITTLE_ENDIAN (length c1) (sizeof (f_type f1))) z c1) =
            host_combine BIG_ENDIAN
              (store BIG_ENDIAN (f_type f2)
                 (low_offset BIG_ENDIAN (length c2) (sizeof (f_type f2))) z c2))
      as Hv' by (by rewrite !host_combine_store_low, Hv, Ht by done).
    split; [congruence|]. split; [congruence|]. split; [done|].
    apply read_val_host_independent; congruence.
  - unfold write_val. by rewrite Hl1, Hl2.
Qed.

Lemma register_host_independent_witness :
  read_val ireg_rv64 LITTLE_ENDIAN r.h (host_split LITTLE_ENDIAN 8 (-2)) =
  read_val ireg_rv64 BIG_ENDIAN r.h (host_split BIG_ENDIAN 8 (-2)).
Proof.
  apply (register_host_independent ireg_rv64 r.bu r.h 7
           (host_split LITTLE_ENDIAN 8 (-2)) (host_split BIG_ENDIAN 8 (-2))).
  - reflexivity.
  - reflexivity.
  - reflexivity.
Defined.

(** ** Assignment and conversion operators of the integer registers *)

Lemma to_signed_mod_small w z :
  0 < w -> - 2 ^ (w - 1) <= z < 2 ^ (w - 1) -> to_signed w (z mod 2 ^ w) = z.
Proof.
  intros Hw Hz.
  assert (2 ^ w = 2 * 2 ^ (w - 1)) as Hp.
  { rewrite <- Z.pow_succ_r by lia. f_equal. lia. }
  unfold to_signed. destruct (Z_lt_le_dec z 0) as [Hneg|Hpos].
  - rewrite <- (Z_mod_plus_full z 1), Z.mod_small by lia.
    destruct (Z.ltb_spec (z + 1 * 2 ^ w) (2 ^ (w - 1))); lia.
  - rewrite Z.mod_small by lia.
    destruct (Z.ltb_spec z (2 ^ (w - 1))); lia.
Qed.

Lemma ireg_to_sx_after_assign k bo z c :
  is_ireg k = true -> length c = sizeof_r k bo ->
  ireg_assign k bo z c ≫= ireg_to_sx k bo =
    Some (to_signed (reg_xlen k) (z mod 2 ^ reg_xlen k)).
Proof.
  intros Hk Hc. rewrite ireg_assign_whole by done. simpl.
  unfold ireg_to_sx. rewrite Hk.
  set (t := match k with ireg_rv32 => s32 | _ => s64 end).
  trans (Some (load bo t (low_offset bo (sizeof_r k bo) (sizeof t))
                 (host_split bo (sizeof_r k bo) z)));
    [by destruct k, bo|].
  rewrite load_low by (by destruct k, bo).
  by destruct k.
Qed.

(** X6. [operator=] followed by [operator sx()] returns the assigned value
    reduced to the [xlen]-bit two's complement range, hence the value
    itself when it is in that range.  The register after [operator=] does
    not depend on what it held before, so of two assignments in a row only
    the second counts and repeating an assignment changes nothing. *)
Theorem ireg_assign_read_back
    (k : regtype) (bo : byte_order) (z : Z) (c : reg) :
  is_ireg k = true ->
  length c = sizeof_r k bo ->
  exists c',
    ireg_assign k bo z c = Some c' /\
    length c' = sizeof_r k bo /\
    ireg_to_sx k bo c' = Some (to_signed (reg_xlen k) (z mod 2 ^ reg_xlen k)) /\
    (- 2 ^ (reg_xlen k - 1) <= z < 2 ^ (reg_xlen k - 1) ->
     ireg_to_sx k bo c' = Some z) /\
    (forall c2, length c2 = sizeof_r k bo -> ireg_assign k bo z c2 = Some c') /\
    (forall z', ireg_assign k bo z' c' = ireg_assign k bo z' c) /\
    ireg_assign k bo z c' = Some c'.
Proof.
  intros Hk Hc. pose proof (ireg_to_sx_after_assign k bo z c Hk Hc) as Hr.
  rewrite ireg_assign_whole in Hr by done. simpl in Hr.
  assert (length (host_split bo (sizeof_r k bo) z) = sizeof_r k bo) as Hlen
    by apply length_host_split.
  exists (host_split bo (sizeof_r k bo) z).
  split; [by apply ireg_assign_whole|]. split; [done|]. split; [done|].
  split; [|split; [|split]].
  - intros Hz. rewrite Hr. f_equal. apply to_signed_mod_small; [|done].
    by destruct k.
  - intros c2 Hc2. by apply ireg_assign_whole.
  - intros z'. by rewrite !ireg_assign_whole.
  - by apply ireg_assign_whole.
Qed.

Lemma ireg_assign_read_back_witness :
  exists c',
    ireg_assign ireg_rv32 BIG_ENDIAN (-5) (reg_init ireg_rv32 BIG_ENDIAN)
      = Some c' /\
    length c' = sizeof_r ireg_rv32 BIG_ENDIAN /\
    ireg_to_sx ireg_rv32 BIG_ENDIAN c' =
      Some (to_signed (reg_xlen ireg_rv32) (-5 mod 2 ^ reg_xlen ireg_rv32)) /\
    (- 2 ^ (reg_xlen ireg_rv32 - 1) <= -5 < 2 ^ (reg_xlen ireg_rv32 - 1) ->
     ireg_to_sx ireg_rv32 BIG_ENDIAN c' = Some (-5)) /\
    (forall c2, length c2 = sizeof_r ireg_rv32 BIG_ENDIAN ->
                ireg_assign ireg_rv32 BIG_ENDIAN (-5) c2 = Some c') /\
    (forall z', ireg_assign ireg_rv32 BIG_ENDIAN z' c' =
                ireg_assign ireg_rv32 BIG_ENDIAN z' (reg_init ireg_rv32 BIG_ENDIAN)) /\
    ireg_assign ireg_rv32 BIG_ENDIAN (-5) c' = Some c'.
Proof.
  apply (ireg_assign_read_back ireg_rv32 BIG_ENDIAN (-5)
           (reg_init ireg_rv32 BIG_ENDIAN)).
  - reflexivity.
  - reflexivity.
Defined.

(** X7. On a host whose pointers have at least [xlen] bits, the pointer
    conversion that reads the full-width view — [operator s32*] of
    [ireg_rv32], [operator s64*] of [ireg_rv64] — is defined after an
    assignment and yields the register's value sign-extended to the pointer
    width: the low-order [xlen] bits of the address are the bits of the
    assigned value, and the address read as a signed number is what
    [operator sx()] returns. *)
Theorem ireg_pointer_full_width
    (k : regtype) (bo : byte_order) (ptr_bits z : Z) (c : reg) :
  is_ireg k = true ->
  length c = sizeof_r k bo ->
  reg_xlen k <= ptr_bits ->
  exists c' a s,
    ireg_assign k bo z c = Some c' /\
    match k with
    | ireg_rv32 => ireg_to_s32p k bo ptr_bits c'
    | _ => ireg_to_s64p k bo ptr_bits c'
    end = Some a /\
    ireg_to_sx k bo c' = Some s /\
    0 <= a < 2 ^ ptr_bits /\
    a mod 2 ^ reg_xlen k = z mod 2 ^ reg_xlen k /\
    to_signed ptr_bits a = s.
Proof.
  intros Hk Hc Hp.
  set (t := match k with ireg_rv32 => s32 | _ => s64 end).
  assert (bitsof t = reg_xlen k) as Hbt by (by destruct k).
  assert (is_signed t = true) as Hst by (by destruct k).
  assert (0 < reg_xlen k) as Hx by (by destruct k).
  pose proof (ireg_to_sx_after_assign k bo z c Hk Hc) as Hs.
  assert (ireg_assign k bo z c ≫=
            (fun c' => match k with
                       | ireg_rv32 => ireg_to_s32p k bo ptr_bits c'
                       | _ => ireg_to_s64p k bo ptr_bits c'
                       end) = Some (reinterpret_cast ptr_bits (convert t z)))
    as Ha.
  { destruct k; try done.
    - by apply ireg_to_s32p_after_assign.
    - by apply ireg_to_s64p_after_assign. }
  rewrite ireg_assign_whole in Hs, Ha by done. simpl in Hs, Ha.
  exists (host_split bo (sizeof_r k bo) z),
         (reinterpret_cast ptr_bits (convert t z)),
         (to_signed (reg_xlen k) (z mod 2 ^ reg_xlen k)).
  split; [by apply ireg_assign_whole|]. split; [done|]. split; [done|].
  assert (0 < 2 ^ ptr_bits) by (apply Z.pow_pos_nonneg; lia).
  unfold reinterpret_cast. split; [apply Z.mod_pos_bound; lia|]. split.
  - rewrite mod_pow2_mod_pow2 by lia. rewrite <- Hbt. apply convert_mod.
  - assert (convert t z = to_signed (reg_xlen k) (z mod 2 ^ reg_xlen k)) as <-.
    { unfold convert, of_bits. by rewrite Hst, Hbt. }
    pose proof (convert_range t z) as Hr. rewrite Hst, Hbt in Hr.
    apply to_signed_mod_small; [lia|].
    assert (2 ^ (reg_xlen k - 1) <= 2 ^ (ptr_bits - 1))
      by (apply Z.pow_le_mono_r; lia).
    lia.
Qed.

Lemma ireg_pointer_full_width_witness :
  exists c' a s,
    ireg_assign ireg_rv32 LITTLE_ENDIAN (-4096)
      (reg_init ireg_rv32 LITTLE_ENDIAN) = Some c' /\
    ireg_to_s32p ireg_rv32 LITTLE_ENDIAN 64 c' = Some a /\
    ireg_to_sx ireg_rv32 LITTLE_ENDIAN c' = Some s /\
    0 <= a < 2 ^ 64 /\
    a mod 2 ^ reg_xlen ireg_rv32 = -4096 mod 2 ^ reg_xlen ireg_rv32 /\
    to_signed 64 a = s.
Proof.
  apply (ireg_pointer_full_width ireg_rv32 LITTLE_ENDIAN 64 (-4096)
           (reg_init ireg_rv32 LITTLE_ENDIAN)).
  - reflexivity.
  - reflexivity.
  - by vm_compute.
Defined.

(** * Further properties of the processor state *)

Lemma write_val_read_same k bo v z c off f :
  length c = sizeof_r k bo ->
  locate k bo v val = Some (off, f) ->
  exists c',
    write_val k bo v z c = Some c' /\
    length c' = sizeof_r k bo /\
    read_val k bo v c' = Some (convert (f_type f) z).
Proof.
  intros Hc Hl.
  destruct (write_val_located k bo v z c off f Hc Hl) as [Hle Hw].
  pose proof (length_store_low bo (f_type f) z c Hle) as Hlen.
  eexists. split; [done|]. split; [congruence|].
  destruct (read_val_located k bo v _ off f (eq_trans Hlen Hc) Hl) as [_ ->].
  rewrite Hlen. f_equal. apply load_store; [done|].
  destruct bo; simpl; lia.
Qed.

(** X8. In every state a processor can be brought into, a write through a
    declared view of an integer register with an index below [ireg_count]
    is defined; afterwards that view of that register reads the written
    value converted to the view's type, every other integer register,
    every floating-point register and every other member of the processor
    is as before, and the processor is again in such a state. *)
Theorem write_ireg_read_back
    (cfg : config) (bo : byte_order) (sizeof_jmp_buf : nat) (p : processor)
    (i : nat) (v : r.view) (z : Z) (off : nat) (f : field) :
  reachable cfg bo sizeof_jmp_buf p ->
  (i < Z.to_nat (ireg_count cfg))%nat ->
  locate (IREG cfg) bo v val = Some (off, f) ->
  exists p',
    mutate cfg bo (write_ireg i v z) p = Some p' /\
    read_ireg cfg bo i v p' = Some (convert (f_type f) z) /\
    (forall j, j <> i -> ireg p' !! j = ireg p !! j) /\
    (forall j v', j <> i -> read_ireg cfg bo j v' p' = read_ireg cfg bo j v' p) /\
    length (ireg p') = length (ireg p) /\
    p' = with_ireg (ireg p') p /\
    reachable cfg bo sizeof_jmp_buf p'.
Proof.
  intros Hp Hi Hl. pose proof (reachable_wf _ _ _ _ Hp) as Hwf.
  destruct (lookup_lt_is_Some_2 (ireg p) i) as [c Hc];
    [rewrite (wf_ireg_count _ _ _ Hwf); lia|].
  pose proof (Forall_lookup_1 _ _ _ _ (wf_ireg _ _ _ Hwf) Hc) as Hlen.
  destruct (write_val_read_same _ _ _ z _ _ _ Hlen Hl) as (c' & Hw & Hlen' & Hr).
  assert (mutate cfg bo (write_ireg i v z) p =
            Some (with_ireg (<[i:=c']> (ireg p)) p)) as Hm.
  { simpl. rewrite Hc. simpl. by rewrite Hw. }
  exists (with_ireg (<[i:=c']> (ireg p)) p).
  split; [done|]. split; [|split; [|split; [|split; [|split]]]].
  - unfold read_ireg. simpl.
    rewrite list_lookup_insert_eq by (by eapply lookup_lt_Some). done.
  - intros j Hj. simpl. by apply list_lookup_insert_ne.
  - intros j v' Hj. unfold read_ireg. simpl.
    by rewrite list_lookup_insert_ne.
  - simpl. apply length_insert.
  - done.
  - by eapply reachable_step.
Qed.

Lemma write_ireg_read_back_witness :
  exists p',
    mutate processor_rv32imafd BIG_ENDIAN (write_ireg 31 r.hu 0x12345)
      (processor_init processor_rv32imafd BIG_ENDIAN 0) = Some p' /\
    read_ireg processor_rv32imafd BIG_ENDIAN 31 r.hu p' =
      Some (convert u16 0x12345) /\
    (forall j, j <> 31%nat ->
       ireg p' !! j =
       ireg (processor_init processor_rv32imafd BIG_ENDIAN 0) !! j) /\
    (forall j v', j <> 31%nat ->
       read_ireg processor_rv32imafd BIG_ENDIAN j v' p' =
       read_ireg processor_rv32imafd BIG_ENDIAN j v'
         (processor_init processor_rv32imafd BIG_ENDIAN 0)) /\
    length (ireg p') =
      length (ireg (processor_init processor_rv32imafd BIG_ENDIAN 0)) /\
    p' = with_ireg (ireg p') (processor_init processor_rv32imafd BIG_ENDIAN 0) /\
    reachable processor_rv32imafd BIG_ENDIAN 0 p'.
Proof.
  apply (write_ireg_read_back processor_rv32imafd BIG_ENDIAN 0
           (processor_init processor_rv32imafd BIG_ENDIAN 0)
           31 r.hu 0x12345 2 (scalar u16 val)).
  - apply reachable_init.
  - vm_compute. lia.
  - reflexivity.
Defined.

(** X9. The same for the floating-point registers: a write through a
    declared view of a floating-point register with an index below
    [freg_count] is defined in every state a processor can be brought
    into, is read back through that view, and changes neither another
    floating-point register nor any integer register nor any other member
    of the processor. *)
Theorem write_freg_read_back
    (cfg : config) (bo : byte_order) (sizeof_jmp_buf : nat) (p : processor)
    (i : nat) (v : r.view) (z : Z) (off : nat) (f : field) :
  reachable cfg bo sizeof_jmp_buf p ->
  (i < Z.to_nat (freg_count cfg))%nat ->
  locate (FREG cfg) bo v val = Some (off, f) ->
  exists p',
    mutate cfg bo (write_freg i v z) p = Some p' /\
    read_freg cfg bo i v p' = Some (convert (f_type f) z) /\
    (forall j, j <> i -> freg p' !! j = freg p !! j) /\
    (forall j v', j <> i -> read_freg cfg bo j v' p' = read_freg cfg bo j v' p) /\
    length (freg p') = length (freg p) /\
    p' = with_freg (freg p') p /\
    reachable cfg bo sizeof_jmp_buf p'.
Proof.
  intros Hp Hi Hl. pose proof (reachable_wf _ _ _ _ Hp) as Hwf.
  destruct (lookup_lt_is_Some_2 (freg p) i) as [c Hc];
    [rewrite (wf_freg_count _ _ _ Hwf); lia|].
  pose proof (Forall_lookup_1 _ _ _ _ (wf_freg _ _ _ Hwf) Hc) as Hlen.
  destruct (write_val_read_same _ _ _ z _ _ _ Hlen Hl) as (c' & Hw & Hlen' & Hr).
  assert (mutate cfg bo (write_freg i v z) p =
            Some (with_freg (<[i:=c']> (freg p)) p)) as Hm.
  { simpl. rewrite Hc. simpl. by rewrite Hw. }
  exists (with_freg (<[i:=c']> (freg p)) p).
  split; [done|]. split; [|split; [|split; [|split; [|split]]]].
  - unfold read_freg. simpl.
    rewrite list_lookup_insert_eq by (by eapply lookup_lt_Some). done.
  - intros j Hj. simpl. by apply list_lookup_insert_ne.
  - intros j v' Hj. unfold read_freg. simpl.
    by rewrite list_lookup_insert_ne.
  - simpl. apply length_insert.
  - done.
  - by eapply reachable_step.
Qed.

Lemma write_freg_read_back_witness :
  exists p',
    mutate processor_rv64imafd LITTLE_ENDIAN (write_freg 0 r.s 0x3f800000)
      (processor_init processor_rv64imafd LITTLE_ENDIAN 0) = Some p' /\
    read_freg processor_rv64imafd LITTLE_ENDIAN 0 r.s p' =
      Some (convert f32 0x3f800000) /\
    (forall j, j <> 0%nat ->
       freg p' !! j =
       freg (processor_init processor_rv64imafd LITTLE_ENDIAN 0) !! j) /\
    (forall j v', j <> 0%nat ->
       read_freg processor_rv64imafd LITTLE_ENDIAN j v' p' =
       read_freg processor_rv64imafd LITTLE_ENDIAN j v'
         (processor_init processor_rv64imafd LITTLE_ENDIAN 0)) /\
    length (freg p') =
      length (freg (processor_init processor_rv64imafd LITTLE_ENDIAN 0)) /\
    p' = with_freg (freg p') (processor_init processor_rv64imafd LITTLE_ENDIAN 0) /\
    reachable processor_rv64imafd LITTLE_ENDIAN 0 p'.
Proof.
  apply (write_freg_read_back processor_rv64imafd LITTLE_ENDIAN 0
           (processor_init processor_rv64imafd LITTLE_ENDIAN 0)
           0 r.s 0x3f800000 0 (scalar f32 val)).
  - apply reachable_init.
  - vm_compute. lia.
  - reflexivity.
Defined.

Lemma in_range_signed t z :
  is_signed t = true -> in_range t z ->
  - 2 ^ (bitsof t - 1) <= z < 2 ^ (bitsof t - 1).
Proof.
  intros Ht Hz. pose proof (convert_range t z) as Hr.
  rewrite Ht in Hr. by rewrite Hz in Hr.
Qed.

Lemma xlen_bitsof cfg : xlen cfg = bitsof (UX cfg).
Proof. unfold xlen, bitsof. rewrite Z.shiftl_mul_pow2 by lia. lia. Qed.

(** X10. The member writes keep the processor within its declaration: in
    every state reachable from the constructor, the register arrays have
    [ireg_count] and [freg_count] elements, each of the size of its union,
    so that every declared view of every register below the count can be
    read; [log] is a 32-bit and [time], [cycle] and [instret] are 64-bit
    unsigned values; [pc] and [fcsr] lie in the range of [UX] and [lr] and
    [badaddr] in the range of [SX]. *)
Theorem processor_invariant
    (cfg : config) (bo : byte_order) (sizeof_jmp_buf : nat) (p : processor) :
  reachable cfg bo sizeof_jmp_buf p ->
  length (ireg p) = Z.to_nat (ireg_count cfg) /\
  length (freg p) = Z.to_nat (freg_count cfg) /\
  (forall i c, ireg p !! i = Some c -> length c = sizeof_r (IREG cfg) bo) /\
  (forall i c, freg p !! i = Some c -> length c = sizeof_r (FREG cfg) bo) /\
  (forall i v, (i < Z.to_nat (ireg_count cfg))%nat ->
     is_Some (union_r (IREG cfg) bo v) -> is_Some (read_ireg cfg bo i v p)) /\
  (forall i v, (i < Z.to_nat (freg_count cfg))%nat ->
     is_Some (union_r (FREG cfg) bo v) -> is_Some (read_freg cfg bo i v p)) /\
  0 <= log p < 2 ^ 32 /\
  0 <= time p < 2 ^ 64 /\
  0 <= cycle p < 2 ^ 64 /\
  0 <= instret p < 2 ^ 64 /\
  (is_signed (UX cfg) = false ->
   0 <= pc p < 2 ^ xlen cfg /\ 0 <= fcsr p < 2 ^ xlen cfg) /\
  (is_signed (SX cfg) = true ->
   - 2 ^ (bitsof (SX cfg) - 1) <= lr p < 2 ^ (bitsof (SX cfg) - 1) /\
   - 2 ^ (bitsof (SX cfg) - 1) <= badaddr p < 2 ^ (bitsof (SX cfg) - 1)).
Proof.
  intros Hp. pose proof (reachable_wf _ _ _ _ Hp) as Hwf.
  destruct Hwf as [Hpc Hic Hi Hfc Hf Hn Hh Hl Hlr Hb Ht Hc Hr Hs].
  assert (forall k (rs : list reg) n i v,
            length rs = n ->
            Forall (fun c => length c = sizeof_r k bo) rs ->
            (i < n)%nat -> is_Some (union_r k bo v) ->
            is_Some (rs !! i ≫= read_val k bo v)) as Hread.
  { intros k rs n i v Hn' Hall Hlt Hv.
    destruct (lookup_lt_is_Some_2 rs i) as [c Hc']; [lia|].
    rewrite Hc'. simpl. apply val_declared in Hv as [[off f] Hloc].
    unfold read_val. rewrite Hloc. simpl. eauto. }
  split; [done|]. split; [done|].
  split; [intros i c Hic'; by eapply Forall_lookup_1 in Hi|].
  split; [intros i c Hfc'; by eapply Forall_lookup_1 in Hf|].
  split; [intros i v Hlt Hv; by eapply Hread|].
  split; [intros i v Hlt Hv; by eapply Hread|].
  split; [by apply (in_range_unsigned u32)|].
  split; [by apply (in_range_unsigned u64)|].
  split; [by apply (in_range_unsigned u64)|].
  split; [by apply (in_range_unsigned u64)|].
  split.
  - intros Hu. rewrite xlen_bitsof. split; by apply in_range_unsigned.
  - intros Hsg. split; by apply in_range_signed.
Qed.

Lemma processor_invariant_witness :
  length (ireg (processor_init processor_rv64imafd LITTLE_ENDIAN 0)) =
  Z.to_nat (ireg_count processor_rv64imafd).
Proof.
  apply (processor_invariant processor_rv64imafd LITTLE_ENDIAN 0
           (processor_init processor_rv64imafd LITTLE_ENDIAN 0)).
  apply reachable_init.
Defined.

(** X11. The constructor leaves -1 in [lr].  With a signed [SX], as in both
    provided configurations, an assignment to [lr] is always defined,
    changes no other member and leaves -1 in [lr] exactly when the assigned
    value is congruent to -1 modulo [2 ^ xlen], that is, when its
    [xlen]-bit pattern has all bits set; every other value is read back as
    a value different from the constructed one. *)
Theorem lr_after_assignment
    (cfg : config) (bo : byte_order) (sizeof_jmp_buf : nat) (p : processor)
    (z : Z) :
  is_signed (SX cfg) = true ->
  lr (processor_init cfg bo sizeof_jmp_buf) = -1 /\
  exists p',
    mutate cfg bo (assign_lr z) p = Some p' /\
    p' = with_lr (lr p') p /\
    lr p' mod 2 ^ bitsof (SX cfg) = z mod 2 ^ bitsof (SX cfg) /\
    (lr p' = -1 <-> z mod 2 ^ bitsof (SX cfg) = 2 ^ bitsof (SX cfg) - 1).
Proof.
  intros Hs. split; [simpl; by destruct (SX cfg)|].
  exists (with_lr (convert (SX cfg) z) p).
  split; [done|]. split; [done|]. simpl.
  split; [apply convert_mod|].
  pose proof (bitsof_pos (SX cfg)) as Hw.
  assert (2 ^ bitsof (SX cfg) = 2 * 2 ^ (bitsof (SX cfg) - 1)) as Hp.
  { rewrite <- Z.pow_succ_r by lia. f_equal. lia. }
  assert (0 < 2 ^ (bitsof (SX cfg) - 1)) by (apply Z.pow_pos_nonneg; lia).
  assert (0 <= z mod 2 ^ bitsof (SX cfg) < 2 ^ bitsof (SX cfg)) as Hm
    by (apply Z.mod_pos_bound; lia).
  unfold convert, of_bits, to_signed. rewrite Hs.
  destruct (Z.ltb_spec (z mod 2 ^ bitsof (SX cfg)) (2 ^ (bitsof (SX cfg) - 1)));
    lia.
Qed.

Lemma lr_after_assignment_witness :
  lr (processor_init processor_rv32imafd LITTLE_ENDIAN 0) = -1 /\
  exists p',
    mutate processor_rv32imafd LITTLE_ENDIAN (assign_lr 0xffffffff)
      (processor_init processor_rv32imafd LITTLE_ENDIAN 0) = Some p' /\
    p' = with_lr (lr p') (processor_init processor_rv32imafd LITTLE_ENDIAN 0) /\
    lr p' mod 2 ^ bitsof (SX processor_rv32imafd) =
      0xffffffff mod 2 ^ bitsof (SX processor_rv32imafd) /\
    (lr p' = -1 <->
     0xffffffff mod 2 ^ bitsof (SX processor_rv32imafd) =
       2 ^ bitsof (SX processor_rv32imafd) - 1).
Proof.
  apply (lr_after_assignment processor_rv32imafd LITTLE_ENDIAN 0
           (processor_init processor_rv32imafd LITTLE_ENDIAN 0) 0xffffffff).
  reflexivity.
Defined.

(** * How writes compose *)

Lemma host_combine_inj bo c1 c2 :
  length c1 = length c2 -> host_combine bo c1 = host_combine bo c2 -> c1 = c2.
Proof.
  intros Hlen Hv. destruct bo; simpl in Hv.
  - by apply le_combine_inj.
  - assert (rev c1 = rev c2) as Hr
      by (apply le_combine_inj; [by rewrite !length_rev|done]).
    by rewrite <- (rev_involutive c1), Hr, rev_involutive.
Qed.

Lemma replace_low_twice z1 z2 u n m :
  0 <= n <= m ->
  Z.lor (z2 mod 2 ^ m)
    (Z.shiftl
       (Z.shiftr (Z.lor (z1 mod 2 ^ n) (Z.shiftl (Z.shiftr u n) n)) m) m) =
  Z.lor (z2 mod 2 ^ m) (Z.shiftl (Z.shiftr u m) m).
Proof.
  intros Hnm. do 2 f_equal.
  assert (0 < 2 ^ n) by (apply Z.pow_pos_nonneg; lia).
  assert (2 ^ n <= 2 ^ m) by (apply Z.pow_le_mono_r; lia).
  assert (0 <= z1 mod 2 ^ n < 2 ^ n) by (apply Z.mod_pos_bound; lia).
  rewrite Z.shiftr_lor, Z.shiftr_shiftl_r, Z.shiftr_shiftr by lia.
  rewrite (Z.shiftr_div_pow2 (z1 mod 2 ^ n)), Z.div_small, Z.lor_0_l by lia.
  f_equal. lia.
Qed.

(** X12. A write through a view overwrites an earlier write through any
    view that is not wider: writing [z1] through a declared view and then
    [z2] through a declared view whose [val] has at least as many bits
    leaves the register exactly as writing [z2] alone does.  In particular,
    of two writes through the same view only the second counts. *)
Theorem write_overwrites_narrower
    (k : regtype) (bo : byte_order) (v1 v2 : r.view) (z1 z2 : Z) (c : reg)
    (o1 o2 : nat) (f1 f2 : field) :
  length c = sizeof_r k bo ->
  locate k bo v1 val = Some (o1, f1) ->
  locate k bo v2 val = Some (o2, f2) ->
  bitsof (f_type f1) <= bitsof (f_type f2) ->
  is_Some (write_val k bo v2 z2 c) /\
  write_val k bo v1 z1 c ≫= write_val k bo v2 z2 = write_val k bo v2 z2 c.
Proof.
  intros Hc H1 H2 Hb.
  destruct (write_val_located k bo v1 z1 c o1 f1 Hc H1) as [Hs1 ->]. simpl.
  pose proof (length_store_low bo (f_type f1) z1 c Hs1) as Hn1.
  destruct (write_val_located k bo v2 z2 _ o2 f2 (eq_trans Hn1 Hc) H2)
    as [Hs2 ->].
  destruct (write_val_located k bo v2 z2 c o2 f2 Hc H2) as [Hs2' ->].
  split; [eauto|]. f_equal. apply (host_combine_inj bo).
  - by rewrite !length_store_low.
  - rewrite !host_combine_store_low by done.
    apply replace_low_twice. pose proof (bitsof_pos (f_type f1)). lia.
Qed.

Lemma write_overwrites_narrower_witness :
  is_Some (write_val ireg_rv64 BIG_ENDIAN r.w 7 (reg_init ireg_rv64 BIG_ENDIAN)) /\
  write_val ireg_rv64 BIG_ENDIAN r.bu 255 (reg_init ireg_rv64 BIG_ENDIAN)
    ≫= write_val ireg_rv64 BIG_ENDIAN r.w 7 =
  write_val ireg_rv64 BIG_ENDIAN r.w 7 (reg_init ireg_rv64 BIG_ENDIAN).
Proof.
  apply (write_overwrites_narrower ireg_rv64 BIG_ENDIAN r.bu r.w 255 7
           (reg_init ireg_rv64 BIG_ENDIAN) 7 4 (scalar u8 val) (scalar s32 val)).
  - reflexivity.
  - reflexivity.
  - reflexivity.
  - by vm_compute.
Defined.

(** X13. Writes to different registers of one processor can be done in
    either order: two writes to integer registers of different index, and
    a write to an integer register and one to a floating-point register,
    give the same processor state (or are both undefined) whichever comes
    first. *)
Theorem register_writes_commute
    (cfg : config) (bo : byte_order) (p : processor) (i j n : nat)
    (vi vj vn : r.view) (zi zj zn : Z) :
  i <> j ->
  (mutate cfg bo (write_ireg i vi zi) p ≫= mutate cfg bo (write_ireg j vj zj) =
   mutate cfg bo (write_ireg j vj zj) p ≫= mutate cfg bo (write_ireg i vi zi)) /\
  (mutate cfg bo (write_ireg i vi zi) p ≫= mutate cfg bo (write_freg n vn zn) =
   mutate cfg bo (write_freg n vn zn) p ≫= mutate cfg bo (write_ireg i vi zi)).
Proof.
  intros Hij. split; simpl.
  - destruct (ireg p !! i) as [ci|] eqn:Hi, (ireg p !! j) as [cj|] eqn:Hj;
      simpl;
      try destruct (write_val (IREG cfg) bo vi zi ci) as [ci'|] eqn:Hwi;
      try destruct (write_val (IREG cfg) bo vj zj cj) as [cj'|] eqn:Hwj;
      simpl;
      rewrite ?list_lookup_insert_ne by done;
      rewrite ?Hi, ?Hj; simpl; rewrite ?Hwi, ?Hwj; simpl; try done.
    unfold with_ireg. simpl. by rewrite list_insert_insert_ne.
  - destruct (ireg p !! i) as [ci|] eqn:Hi, (freg p !! n) as [cn|] eqn:Hn;
      simpl;
      try destruct (write_val (IREG cfg) bo vi zi ci) as [ci'|] eqn:Hwi;
      try destruct (write_val (FREG cfg) bo vn zn cn) as [cn'|] eqn:Hwn;
      simpl; rewrite ?Hi, ?Hn; simpl; rewrite ?Hwi, ?Hwn; simpl; done.
Qed.

Lemma register_writes_commute_witness :
  mutate processor_rv32imafd LITTLE_ENDIAN (write_ireg 1 r.x 5)
    (processor_init processor_rv32imafd LITTLE_ENDIAN 0)
    ≫= mutate processor_rv32imafd LITTLE_ENDIAN (write_ireg 2 r.b (-1)) =
  mutate processor_rv32imafd LITTLE_ENDIAN (write_ireg 2 r.b (-1))
    (processor_init processor_rv32imafd LITTLE_ENDIAN 0)
    ≫= mutate processor_rv32imafd LITTLE_ENDIAN (write_ireg 1 r.x 5).
Proof.
  apply (register_writes_commute processor_rv32imafd LITTLE_ENDIAN
           (processor_init processor_rv32imafd LITTLE_ENDIAN 0)
           1 2 0 r.x r.b r.d 5 (-1) 0).
  lia.
Defined.

(** * The pointer conversions on an arbitrary register *)





(** * Independence of processor objects *)

Lemma le_align_up x a : (x <= align_up x a)%nat.
Proof. unfold align_up. lia. Qed.

Lemma end_from_le sz al ms : forall cur, (cur <= end_from sz al cur ms)%nat.
Proof.
  induction ms as [|m' ms IH]; intros cur; simpl; [done|].
  specialize (IH (align_up cur (al m') + sz m')%nat).
  pose proof (le_align_up cur (al m')). lia.
Qed.

(** A member lies between the start of the layout and its end. *)
Lemma offset_from_within sz al ms m : forall cur o,
  offset_from sz al cur ms m = Some o ->
  (cur <= o /\ o + sz m <= end_from sz al cur ms)%nat.
Proof.
  induction ms as [|m' ms IH]; intros cur o Ho; simpl in *; [done|].
  pose proof (le_align_up cur (al m')) as Hle.
  destruct (decide (m' = m)) as [->|Hne].
  - injection Ho as <-. split; [done|]. apply end_from_le.
  - apply IH in Ho. lia.
Qed.

Lemma offsetof_member_within cfg bo h pm o :
  offsetof_member cfg bo h pm = Some o ->
  (o + pmember_size cfg bo h pm <= sizeof_processor cfg bo h)%nat.
Proof.
  intros Ho. apply offset_from_within in Ho as [_ Ho].
  unfold sizeof_processor.
  pose proof (le_align_up
                (end_from (pmember_size cfg bo h) (pmember_align cfg bo h) 0
                   processor_members)
                (alignof_processor cfg bo h)).
  lia.
Qed.

(** Every scalar the executor can name lies within the object. *)
Lemma place_within cfg bo h mr off t :
  place cfg bo h mr = Some (off, t) ->
  (off + sizeof t <= sizeof_processor cfg bo h)%nat.
Proof.
  intros Hp. destruct mr as [pm|i v|i v]; unfold place in Hp.
  - destruct (pmember_type cfg pm) as [t'|] eqn:Ht; [|done].
    destruct (offsetof_member cfg bo h pm) as [o|] eqn:Ho; [|done].
    simpl in Hp. injection Hp as <- <-.
    apply offsetof_member_within in Ho.
    assert (pmember_size cfg bo h pm = sizeof t') as Hs
      by (destruct pm; simpl in *; by simplify_eq).
    lia.
  - case_decide as Hi; [|done].
    destruct (locate (IREG cfg) bo v val) as [[o' f]|] eqn:Hl; [|done].
    destruct (offsetof_member cfg bo h p_ireg) as [o|] eqn:Ho; [|done].
    simpl in Hp. injection Hp as <- <-.
    apply offsetof_member_within in Ho.
    change (pmember_size cfg bo h p_ireg)
      with (Z.to_nat (ireg_count cfg) * sizeof_r (IREG cfg) bo)%nat in Ho.
    apply locate_val_low in Hl as [-> Hle].
    assert (low_offset bo (sizeof_r (IREG cfg) bo) (sizeof (f_type f))
              + sizeof (f_type f) <= sizeof_r (IREG cfg) bo)%nat
      by (destruct bo; simpl; lia).
    assert ((i + 1) * sizeof_r (IREG cfg) bo
              <= Z.to_nat (ireg_count cfg) * sizeof_r (IREG cfg) bo)%nat
      by (apply Nat.mul_le_mono_r; lia).
    lia.
  - case_decide as Hi; [|done].
    destruct (locate (FREG cfg) bo v val) as [[o' f]|] eqn:Hl; [|done].
    destruct (offsetof_member cfg bo h p_freg) as [o|] eqn:Ho; [|done].
    simpl in Hp. injection Hp as <- <-.
    apply offsetof_member_within in Ho.
    change (pmember_size cfg bo h p_freg)
      with (Z.to_nat (freg_count cfg) * sizeof_r (FREG cfg) bo)%nat in Ho.
    apply locate_val_low in Hl as [-> Hle].
    assert (low_offset bo (sizeof_r (FREG cfg) bo) (sizeof (f_type f))
              + sizeof (f_type f) <= sizeof_r (FREG cfg) bo)%nat
      by (destruct bo; simpl; lia).
    assert ((i + 1) * sizeof_r (FREG cfg) bo
              <= Z.to_nat (freg_count cfg) * sizeof_r (FREG cfg) bo)%nat
      by (apply Nat.mul_le_mono_r; lia).
    lia.
Qed.

(** A load does not see a store to a range disjoint from its own. *)
Lemma load_store_other bo t t' off off' z m :
  (off + sizeof t' <= length m)%nat ->
  (off' + sizeof t <= off \/ off + sizeof t' <= off')%nat ->
  load bo t off' (store bo t' off z m) = load bo t off' m.
Proof.
  intros Hm Hd. unfold load. do 2 f_equal. apply list_eq. intros i.
  destruct (decide (i < sizeof t)%nat) as [Hi|Hi].
  - rewrite !lookup_take_lt, !lookup_drop by done.
    apply store_lookup_other; [done|lia].
  - by rewrite !lookup_take_ge by lia.
Qed.

Lemma write_bytes_lookup_other off bs m i :
  (off + length bs <= length m)%nat ->
  (i < off \/ off + length bs <= i)%nat ->
  write_bytes off bs m !! i = m !! i.
Proof.
  intros Hm Hi. unfold write_bytes. destruct Hi as [Hi|Hi].
  - rewrite lookup_app_l by (rewrite length_take; lia).
    by apply lookup_take_lt.
  - rewrite lookup_app_r by (rewrite length_take; lia).
    rewrite lookup_app_r by (rewrite length_take; lia).
    rewrite length_take, lookup_drop. f_equal. lia.
Qed.

Lemma length_write_bytes off bs m :
  (off + length bs <= length m)%nat -> length (write_bytes off bs m) = length m.
Proof.
  intros H. unfold write_bytes.
  rewrite !length_app, length_take, length_drop. lia.
Qed.

Lemma length_init_bytes cfg bo h pm :
  length (init_bytes cfg bo h pm) = pmember_size cfg bo h pm.
Proof.
  destruct pm; simpl; rewrite ?length_replicate; try done.
  apply length_host_split.
Qed.

Lemma construct_members_frame cfg bo h base (m : list byte) pms :
  forall m0 : list byte,
  length m0 = length m ->
  (base + sizeof_processor cfg bo h <= length m)%nat ->
  let m1 := foldl
              (fun m' pm =>
                 from_option
                   (fun o => write_bytes (base + o) (init_bytes cfg bo h pm) m')
                   m' (offsetof_member cfg bo h pm))
              m0 pms in
  length m1 = length m /\
  forall a, (a < base \/ base + sizeof_processor cfg bo h <= a)%nat ->
            m1 !! a = m0 !! a.
Proof.
  induction pms as [|pm pms IH]; intros m0 Hm0 Hb; simpl; [done|].
  destruct (offsetof_member cfg bo h pm) as [o|] eqn:Ho; simpl.
  - pose proof (offsetof_member_within _ _ _ _ _ Ho) as Hw.
    pose proof (length_init_bytes cfg bo h pm) as Hl.
    destruct (IH (write_bytes (base + o) (init_bytes cfg bo h pm) m0))
      as [Hlen Hfr]; [rewrite length_write_bytes; lia|done|].
    split; [done|]. intros a Ha. rewrite Hfr by done.
    apply write_bytes_lookup_other; lia.
  - by apply IH.
Qed.

(** The constructor is defined on storage that lies in memory and writes
    within the object it constructs. *)
Lemma mem_construct_frame cfg bo h base m :
  (base + sizeof_processor cfg bo h <= length m)%nat ->
  exists m',
    mem_construct cfg bo h base m = Some m' /\
    length m' = length m /\
    forall a, (a < base \/ base + sizeof_processor cfg bo h <= a)%nat ->
              m' !! a = m !! a.
Proof.
  intros Hb. unfold mem_construct. rewrite decide_True by done.
  eexists. split; [reflexivity|].
  exact (construct_members_frame cfg bo h base m processor_members m eq_refl Hb).
Qed.

(** A load depends on the bytes of its range only. *)
Lemma load_agree bo t off (m m' : list byte) :
  (forall i, (off <= i < off + sizeof t)%nat -> m' !! i = m !! i) ->
  load bo t off m' = load bo t off m.
Proof.
  intros Hag. unfold load. do 2 f_equal. apply list_eq. intros i.
  destruct (decide (i < sizeof t)%nat) as [Hi|Hi].
  - rewrite !lookup_take_lt, !lookup_drop by done. apply Hag. lia.
  - by rewrite !lookup_take_ge by lia.
Qed.

(** What an object reads depends on its own bytes only. *)
Lemma mem_read_agree cfg bo h base mr (m m' : list byte) :
  length m' = length m ->
  (forall a, (base <= a < base + sizeof_processor cfg bo h)%nat ->
             m' !! a = m !! a) ->
  mem_read cfg bo h base mr m' = mem_read cfg bo h base mr m.
Proof.
  intros Hlen Hag. unfold mem_read.
  destruct (place cfg bo h mr) as [[off t]|] eqn:Hp; [|done]. simpl.
  rewrite Hlen. case_decide; [|done]. f_equal.
  pose proof (place_within _ _ _ _ _ _ Hp) as Hw.
  apply load_agree. intros i Hi. apply Hag. lia.
Qed.

(** The layout is sound: two different members of [processor] do not
    overlap. *)
Lemma offset_from_disjoint sz al ms m m' : forall cur o o',
  m <> m' ->
  offset_from sz al cur ms m = Some o ->
  offset_from sz al cur ms m' = Some o' ->
  (o + sz m <= o' \/ o' + sz m' <= o)%nat.
Proof.
  induction ms as [|m0 ms IH]; intros cur o o' Hne Ho Ho'; simpl in *; [done|].
  destruct (decide (m0 = m)) as [Hm|Hm], (decide (m0 = m')) as [Hm'|Hm'].
  - congruence.
  - injection Ho as <-. apply offset_from_within in Ho' as [Ho' _].
    subst m0. by left.
  - injection Ho' as <-. apply offset_from_within in Ho as [Ho _].
    subst m0. by right.
  - by eapply IH.
Qed.

Lemma members_disjoint cfg bo h pm pm' o o' :
  pm <> pm' ->
  offsetof_member cfg bo h pm = Some o ->
  offsetof_member cfg bo h pm' = Some o' ->
  (o + pmember_size cfg bo h pm <= o' \/
   o' + pmember_size cfg bo h pm' <= o)%nat.
Proof. apply offset_from_disjoint. Qed.

(** * A memory object and the processor state it holds *)

Lemma lookup_slice off n (m : list byte) i :
  slice off n m !! i = if decide (i < n)%nat then m !! (off + i)%nat else None.
Proof.
  unfold slice. case_decide.
  - by rewrite lookup_take_lt, lookup_drop.
  - by rewrite lookup_take_ge by lia.
Qed.

Lemma length_slice off n (m : list byte) :
  (off + n <= length m)%nat -> length (slice off n m) = n.
Proof. intros H. unfold slice. rewrite length_take, length_drop. lia. Qed.

Lemma store_lookup_inside bo t off z (m : list byte) i :
  (off + sizeof t <= length m)%nat ->
  (off <= i < off + sizeof t)%nat ->
  store bo t off z m !! i = host_split bo (sizeof t) z !! (i - off)%nat.
Proof.
  intros Hm Hi. unfold store.
  rewrite lookup_app_r by (rewrite length_take; lia).
  rewrite length_take, Nat.min_l by lia.
  apply lookup_app_l. rewrite length_host_split. lia.
Qed.

(** The bytes of a stored scalar are its representation. *)
Lemma slice_store_same bo t off z (m : list byte) :
  (off + sizeof t <= length m)%nat ->
  slice off (sizeof t) (store bo t off z m) = host_split bo (sizeof t) z.
Proof.
  intros Hm. apply list_eq. intros i. rewrite lookup_slice. case_decide.
  - rewrite store_lookup_inside by lia. f_equal. lia.
  - symmetry. apply lookup_ge_None_2. rewrite length_host_split. lia.
Qed.

(** A range disjoint from a store keeps its bytes. *)
Lemma slice_store_other bo t off z (m : list byte) off' n :
  (off + sizeof t <= length m)%nat ->
  (off' + n <= off \/ off + sizeof t <= off')%nat ->
  slice off' n (store bo t off z m) = slice off' n m.
Proof.
  intros Hm Hd. apply list_eq. intros i. rewrite !lookup_slice.
  case_decide; [|done]. apply store_lookup_other; [done|lia].
Qed.

(** A store inside a range is a store into the bytes of the range. *)
Lemma slice_store_inside bo t off z (m : list byte) off' n :
  (off' + n <= length m)%nat ->
  (off' <= off)%nat -> (off + sizeof t <= off' + n)%nat ->
  slice off' n (store bo t off z m) = store bo t (off - off') z (slice off' n m).
Proof.
  intros Hm Hlo Hhi. apply list_eq. intros i.
  pose proof (length_slice off' n m Hm) as Hls.
  rewrite lookup_slice. case_decide as Hi.
  - destruct (decide (off <= off' + i < off + sizeof t)%nat) as [Hin|Hout].
    + rewrite !store_lookup_inside by lia. f_equal. lia.
    + rewrite !store_lookup_other by lia.
      by rewrite lookup_slice, decide_True.
  - symmetry. apply lookup_ge_None_2. rewrite length_store; lia.
Qed.

Lemma lookup_chunks n size (bs : list byte) i :
  chunks n size bs !! i =
    if decide (i < n)%nat then Some (slice (i * size) size bs) else None.
Proof.
  unfold chunks. rewrite list_lookup_fmap. case_decide.
  - by rewrite lookup_seq_lt.
  - by rewrite lookup_seq_ge by lia.
Qed.

Lemma length_chunks n size (bs : list byte) : length (chunks n size bs) = n.
Proof. unfold chunks. by rewrite length_fmap, length_seq. Qed.

(** A store inside element [i] of an array of registers changes that
    element by the same store and no other element. *)
Lemma chunks_store bo t off z n size (bs : list byte) i :
  length bs = (n * size)%nat -> (i < n)%nat -> (off + sizeof t <= size)%nat ->
  chunks n size (store bo t (i * size + off) z bs) =
  <[i := store bo t off z (slice (i * size) size bs)]> (chunks n size bs).
Proof.
  intros Hbs Hi Ho.
  assert ((i + 1) * size <= n * size)%nat by (apply Nat.mul_le_mono_r; lia).
  apply list_eq. intros j.
  destruct (decide (j = i)) as [->|Hne].
  - rewrite list_lookup_insert_eq by (by rewrite length_chunks).
    rewrite lookup_chunks, decide_True by done. f_equal.
    rewrite slice_store_inside by lia. f_equal. lia.
  - rewrite list_lookup_insert_ne by done. rewrite !lookup_chunks.
    case_decide as Hj; [|done]. f_equal.
    apply slice_store_other; [lia|].
    assert ((j + 1) * size <= i * size \/ (i + 1) * size <= j * size)%nat
      by (destruct (decide (j < i)%nat);
          [left|right]; apply Nat.mul_le_mono_r; lia).
    lia.
Qed.

Lemma offsetof_member_is_Some cfg bo h pm : is_Some (offsetof_member cfg bo h pm).
Proof. destruct pm; eexists; reflexivity. Qed.

Lemma member_bytes_eq cfg bo h base pm o (m : list byte) :
  offsetof_member cfg bo h pm = Some o ->
  member_bytes cfg bo h base pm m = slice (base + o) (pmember_size cfg bo h pm) m.
Proof. intros Ho. unfold member_bytes. by rewrite Ho. Qed.

(** A store inside one member leaves the bytes of every other member. *)
Lemma member_bytes_store_other cfg bo h base pm pm' o d t z (m : list byte) :
  pm' <> pm ->
  offsetof_member cfg bo h pm = Some o ->
  (d + sizeof t <= pmember_size cfg bo h pm)%nat ->
  (base + sizeof_processor cfg bo h <= length m)%nat ->
  member_bytes cfg bo h base pm' (store bo t (base + (o + d)) z m) =
  member_bytes cfg bo h base pm' m.
Proof.
  intros Hne Ho Hd Hm.
  destruct (offsetof_member_is_Some cfg bo h pm') as [o' Ho'].
  rewrite !(member_bytes_eq _ _ _ _ _ _ _ Ho').
  pose proof (offsetof_member_within _ _ _ _ _ Ho).
  pose proof (members_disjoint _ _ _ _ _ _ _ Hne Ho' Ho).
  apply slice_store_other; lia.
Qed.

Lemma scalar_of_host_split cfg bo pm t z :
  pmember_type cfg pm = Some t ->
  scalar_of cfg bo pm (host_split bo (sizeof t) z) = convert t z.
Proof.
  intros Ht. unfold scalar_of, convert. rewrite Ht. simpl.
  by rewrite host_combine_split, bitsof_sizeof.
Qed.

Lemma pmember_size_scalar cfg bo h pm t :
  pmember_type cfg pm = Some t -> pmember_size cfg bo h pm = sizeof t.
Proof. intros Ht. destruct pm; simpl in *; by simplify_eq. Qed.

(** A write to a scalar member, seen in the bytes of the members. *)
Lemma object_at_scalar_write cfg bo h base pm t o z (m : list byte) :
  pmember_type cfg pm = Some t ->
  offsetof_member cfg bo h pm = Some o ->
  (base + sizeof_processor cfg bo h <= length m)%nat ->
  mem_write cfg bo h base (m_scalar pm) z m = Some (store bo t (base + o) z m) /\
  (forall pm', pm' <> pm ->
     member_bytes cfg bo h base pm' (store bo t (base + o) z m) =
     member_bytes cfg bo h base pm' m) /\
  scalar_of cfg bo pm
    (member_bytes cfg bo h base pm (store bo t (base + o) z m)) = convert t z.
Proof.
  intros Ht Ho Hm.
  pose proof (pmember_size_scalar cfg bo h pm t Ht) as Hs.
  pose proof (offsetof_member_within _ _ _ _ _ Ho) as Hw.
  split; [|split].
  - unfold mem_write, place. rewrite Ht, Ho. simpl. by rewrite decide_True.
  - intros pm' Hne. rewrite <- (Nat.add_0_r o) at 1.
    apply (member_bytes_store_other cfg bo h base pm); [done|done|lia|done].
  - rewrite (member_bytes_eq _ _ _ _ _ _ _ Ho), Hs.
    rewrite slice_store_same by lia. by apply scalar_of_host_split.
Qed.

(** A write to a view of a register, seen in the bytes of the members. *)
Lemma object_at_reg_write cfg bo h base pm n size o i off t z (m : list byte) :
  pmember_size cfg bo h pm = (n * size)%nat ->
  offsetof_member cfg bo h pm = Some o ->
  (i < n)%nat -> (off + sizeof t <= size)%nat ->
  (base + sizeof_processor cfg bo h <= length m)%nat ->
  (forall pm', pm' <> pm ->
     member_bytes cfg bo h base pm' (store bo t (base + (o + i * size + off)) z m) =
     member_bytes cfg bo h base pm' m) /\
  chunks n size
    (member_bytes cfg bo h base pm (store bo t (base + (o + i * size + off)) z m)) =
  <[i := store bo t off z
           (slice (i * size) size (member_bytes cfg bo h base pm m))]>
    (chunks n size (member_bytes cfg bo h base pm m)).
Proof.
  intros Hs Ho Hi Hoff Hm.
  pose proof (offsetof_member_within _ _ _ _ _ Ho) as Hw.
  assert ((i + 1) * size <= n * size)%nat by (apply Nat.mul_le_mono_r; lia).
  split.
  - intros pm' Hne. rewrite <- Nat.add_assoc.
    apply (member_bytes_store_other cfg bo h base pm); [done|done|lia|done].
  - rewrite !(member_bytes_eq _ _ _ _ _ _ _ Ho), Hs.
    rewrite slice_store_inside by lia.
    replace (base + (o + i * size + off) - (base + o))%nat
      with (i * size + off)%nat by lia.
    apply chunks_store; [|done|done].
    apply length_slice. lia.
Qed.

Lemma sim_scalar cfg bo h base pm t z (m : list byte) :
  pmember_type cfg pm = Some t ->
  (base + sizeof_processor cfg bo h <= length m)%nat ->
  exists m',
    mem_write cfg bo h base (m_scalar pm) z m = Some m' /\
    length m' = length m /\
    (forall pm', pm' <> pm ->
       member_bytes cfg bo h base pm' m' = member_bytes cfg bo h base pm' m) /\
    scalar_of cfg bo pm (member_bytes cfg bo h base pm m') = convert t z.
Proof.
  intros Ht Hm. destruct (offsetof_member_is_Some cfg bo h pm) as [o Ho].
  destruct (object_at_scalar_write cfg bo h base pm t o z m Ht Ho Hm)
    as (Hw & Hother & Hown).
  exists (store bo t (base + o) z m). split; [done|]. split; [|done].
  apply length_store.
  pose proof (offsetof_member_within _ _ _ _ _ Ho).
  rewrite (pmember_size_scalar cfg bo h pm t Ht) in *. lia.
Qed.

(** The two ways a register write can go, in memory and on the array of
    registers the memory holds. *)
Lemma sim_reg cfg bo h base pm k n i v z (m : list byte) :
  pmember_size cfg bo h pm = (n * sizeof_r k bo)%nat ->
  (base + sizeof_processor cfg bo h <= length m)%nat ->
  let rs := chunks n (sizeof_r k bo) (member_bytes cfg bo h base pm m) in
  match
    (if decide (i < n)%nat then
       '(off, f) ← locate k bo v val;
       o ← offsetof_member cfg bo h pm;
       Some ((o + i * sizeof_r k bo + off)%nat, f_type f)
     else None)
    ≫= (fun '(off, t) =>
          if decide (base + sizeof_processor cfg bo h <= length m)%nat
          then Some (store bo t (base + off) z m) else None)
  with
  | Some m' =>
      length m' = length m /\
      (forall pm', pm' <> pm ->
         member_bytes cfg bo h base pm' m' = member_bytes cfg bo h base pm' m) /\
      exists c c',
        rs !! i = Some c /\
        write_val k bo v z c = Some c' /\
        chunks n (sizeof_r k bo) (member_bytes cfg bo h base pm m') =
          <[i := c']> rs
  | None => rs !! i ≫= write_val k bo v z = None
  end.
Proof.
  intros Hs Hm rs. subst rs. rewrite lookup_chunks.
  destruct (decide (i < n)%nat) as [Hi|Hi]; [|done].
  destruct (locate k bo v val) as [[off f]|] eqn:Hl; simpl;
    [|unfold write_val; by rewrite Hl].
  destruct (offsetof_member_is_Some cfg bo h pm) as [o Ho].
  rewrite Ho. simpl. rewrite decide_True by done.
  pose proof (offsetof_member_within _ _ _ _ _ Ho) as Hw.
  destruct (locate_val_low _ _ _ _ _ Hl) as [Hoff Hle].
  assert (off + sizeof (f_type f) <= sizeof_r k bo)%nat as Hin
    by (rewrite Hoff; destruct bo; simpl; lia).
  assert ((i + 1) * sizeof_r k bo <= n * sizeof_r k bo)%nat
    by (apply Nat.mul_le_mono_r; lia).
  destruct (object_at_reg_write cfg bo h base pm n (sizeof_r k bo) o i off
              (f_type f) z m Hs Ho Hi Hin Hm) as [Hother Hown].
  split; [apply length_store; lia|]. split; [done|].
  eexists _, _. split; [done|]. split; [|done].
  unfold write_val. by rewrite Hl.
Qed.

Ltac frame_members H :=
  rewrite ?(H p_pc), ?(H p_ireg), ?(H p_freg), ?(H p_node_id), ?(H p_hart_id),
    ?(H p_log), ?(H p_lr), ?(H p_badaddr), ?(H p_env), ?(H p_time),
    ?(H p_cycle), ?(H p_instret), ?(H p_fcsr) by done.

Ltac sim_scalar_case cfg bo h base m Hm pm t z :=
  let m' := fresh "m'" in
  let Hw := fresh "Hw" in
  let Hother := fresh "Hother" in
  let Hown := fresh "Hown" in
  destruct (sim_scalar cfg bo h base pm t z m eq_refl Hm)
    as (m' & Hw & _ & Hother & Hown);
  unfold mem_mutate; cbn [target mbind option_bind]; rewrite Hw;
  cbn [fmap option_fmap option_map mutate]; f_equal;
  unfold object_at, with_pc, with_node_id, with_hart_id, with_log, with_lr,
    with_badaddr, with_time, with_cycle, with_instret, with_fcsr;
  cbn [pc ireg freg node_id hart_id log lr badaddr env time cycle instret fcsr];
  frame_members Hother; rewrite Hown; reflexivity.

(** A write through an object in memory is the member write [mutate] on
    the processor state the object holds: both are defined in the same
    cases, and the object then holds the state [mutate] returns. *)
Ltac sim_reg_case Hsim Hproj :=
  match type of Hsim with
  | match ?X with _ => _ end =>
      change (mem_mutate _ _ _ _ _ _) with X; destruct X as [m'|]
  end;
  cbn [fmap option_fmap option_map mutate]; rewrite Hproj;
  [ destruct Hsim as (_ & Hother & c & c' & Hc & Hw & Hch);
    rewrite Hc; cbn [mbind option_bind]; rewrite Hw; cbn [mbind option_bind];
    f_equal; unfold object_at, with_ireg, with_freg;
    cbn [pc ireg freg node_id hart_id log lr badaddr env time cycle instret
         fcsr];
    frame_members Hother; rewrite Hch; reflexivity
  | match type of Hsim with
    | ?L !! ?i ≫= _ = None =>
        destruct (L !! i) as [c|]; cbn [mbind option_bind] in *;
        [by rewrite Hsim|done]
    end ].

Lemma mem_mutate_object_at cfg bo h base mu (m : list byte) :
  (base + sizeof_processor cfg bo h <= length m)%nat ->
  object_at cfg bo h base <$> mem_mutate cfg bo h base mu m =
  mutate cfg bo mu (object_at cfg bo h base m).
Proof.
  intros Hm.
  assert (ireg (object_at cfg bo h base m) =
            chunks (Z.to_nat (ireg_count cfg)) (sizeof_r (IREG cfg) bo)
              (member_bytes cfg bo h base p_ireg m)) as Hireg by reflexivity.
  assert (freg (object_at cfg bo h base m) =
            chunks (Z.to_nat (freg_count cfg)) (sizeof_r (FREG cfg) bo)
              (member_bytes cfg bo h base p_freg m)) as Hfreg by reflexivity.
  destruct mu as [z|i z|i v z|i v z|z|z|z|z|z|z|z|z|z].
  - sim_scalar_case cfg bo h base m Hm p_pc (UX cfg) z.
  - pose proof (sim_reg cfg bo h base p_ireg (IREG cfg)
                  (Z.to_nat (ireg_count cfg)) i r.x z m eq_refl Hm) as Hsim.
    cbv zeta in Hsim. unfold mem_mutate, target, mutate, ireg_assign.
    destruct (is_ireg (IREG cfg)).
    + fold (mutate cfg bo (write_ireg i r.x z) (object_at cfg bo h base m)).
      fold (target cfg (write_ireg i r.x z)).
      fold (mem_mutate cfg bo h base (write_ireg i r.x z) m).
      sim_reg_case Hsim Hireg.
    + cbn [mbind option_bind fmap option_fmap option_map].
      by destruct (ireg (object_at cfg bo h base m) !! i).
  - pose proof (sim_reg cfg bo h base p_ireg (IREG cfg)
                  (Z.to_nat (ireg_count cfg)) i v z m eq_refl Hm) as Hsim.
    cbv zeta in Hsim. sim_reg_case Hsim Hireg.
  - pose proof (sim_reg cfg bo h base p_freg (FREG cfg)
                  (Z.to_nat (freg_count cfg)) i v z m eq_refl Hm) as Hsim.
    cbv zeta in Hsim. sim_reg_case Hsim Hfreg.
  - sim_scalar_case cfg bo h base m Hm p_node_id u16 z.
  - sim_scalar_case cfg bo h base m Hm p_hart_id u16 z.
  - sim_scalar_case cfg bo h base m Hm p_log u32 z.
  - sim_scalar_case cfg bo h base m Hm p_lr (SX cfg) z.
  - sim_scalar_case cfg bo h base m Hm p_badaddr (SX cfg) z.
  - sim_scalar_case cfg bo h base m Hm p_time u64 z.
  - sim_scalar_case cfg bo h base m Hm p_cycle u64 z.
  - sim_scalar_case cfg bo h base m Hm p_instret u64 z.
  - sim_scalar_case cfg bo h base m Hm p_fcsr (UX cfg) z.
Qed.

(** ** The constructor in memory *)

Lemma slice_write_bytes_same off (bs m : list byte) :
  (off + length bs <= length m)%nat ->
  slice off (length bs) (write_bytes off bs m) = bs.
Proof.
  intros Hm. unfold slice, write_bytes.
  rewrite drop_app_length' by (rewrite length_take; lia).
  by rewrite take_app_length.
Qed.

Lemma slice_write_bytes_other off (bs m : list byte) off' n :
  (off + length bs <= length m)%nat ->
  (off' + n <= off \/ off + length bs <= off')%nat ->
  slice off' n (write_bytes off bs m) = slice off' n m.
Proof.
  intros Hm Hd. apply list_eq. intros i. rewrite !lookup_slice.
  case_decide; [|done]. apply write_bytes_lookup_other; [done|lia].
Qed.

(** After the members [pms] were initialised, each of them holds its
    initial bytes and every other member is as before. *)
Lemma construct_members_bytes cfg bo h base (m : list byte) pms :
  NoDup pms ->
  forall m0 : list byte,
    length m0 = length m ->
    (base + sizeof_processor cfg bo h <= length m)%nat ->
    let m1 := foldl
                (fun m' pm =>
                   from_option
                     (fun o => write_bytes (base + o) (init_bytes cfg bo h pm) m')
                     m' (offsetof_member cfg bo h pm))
                m0 pms in
    forall pm,
      member_bytes cfg bo h base pm m1 =
        if decide (pm ∈ pms) then init_bytes cfg bo h pm
        else member_bytes cfg bo h base pm m0.
Proof.
  induction 1 as [|pm0 pms Hnin Hnd IH]; intros m0 Hm0 Hb; simpl.
  { by intros pm. }
  destruct (offsetof_member_is_Some cfg bo h pm0) as [o0 Ho0].
  rewrite Ho0. simpl.
  pose proof (offsetof_member_within _ _ _ _ _ Ho0) as Hw0.
  pose proof (length_init_bytes cfg bo h pm0) as Hl0.
  intros pm.
  rewrite (IH (write_bytes (base + o0) (init_bytes cfg bo h pm0) m0))
    by (rewrite ?length_write_bytes; lia).
  destruct (offsetof_member_is_Some cfg bo h pm) as [o Ho].
  destruct (decide (pm = pm0)) as [->|Hne].
  - rewrite decide_False by done. rewrite decide_True by (apply elem_of_cons; by left).
    rewrite (member_bytes_eq _ _ _ _ _ _ _ Ho0), <- Hl0.
    apply slice_write_bytes_same. lia.
  - assert (member_bytes cfg bo h base pm
              (write_bytes (base + o0) (init_bytes cfg bo h pm0) m0) =
            member_bytes cfg bo h base pm m0) as Hsame.
    { rewrite !(member_bytes_eq _ _ _ _ _ _ _ Ho).
      pose proof (members_disjoint _ _ _ _ _ _ _ Hne Ho Ho0).
      apply slice_write_bytes_other; lia. }
    rewrite Hsame.
    destruct (decide (pm ∈ pms)) as [Hin|Hnin'].
    + by rewrite decide_True by (apply elem_of_cons; by right).
    + rewrite decide_False; [done|].
      intros [?|?]%elem_of_cons; done.
Qed.

Lemma host_combine_zeros bo n : host_combine bo (replicate n Byte.x00) = 0.
Proof.
  assert (forall l : list byte, Forall (eq Byte.x00) l -> le_combine l = 0)
    as Hz.
  { induction 1 as [|b l <- _ IH]; [done|].
    change (le_combine (Byte.x00 :: l))
      with (Z.lor (byte.unsigned Byte.x00) (Z.shiftl (le_combine l) 8)).
    by rewrite IH. }
  destruct bo; simpl; apply Hz.
  - apply Forall_replicate. done.
  - apply Forall_forall. intros b Hb.
    apply list_elem_of_In, in_rev, list_elem_of_In in Hb.
    apply elem_of_replicate in Hb. by destruct Hb.
Qed.

Lemma chunks_zeros n size :
  chunks n size (replicate (n * size) Byte.x00) =
  replicate n (replicate size Byte.x00).
Proof.
  apply list_eq. intros i. rewrite lookup_chunks.
  destruct (decide (i < n)%nat) as [Hi|Hi].
  - rewrite lookup_replicate_2 by done. f_equal.
    assert ((i + 1) * size <= n * size)%nat by (apply Nat.mul_le_mono_r; lia).
    apply list_eq. intros j. rewrite lookup_slice.
    destruct (decide (j < size)%nat) as [Hj|Hj].
    + by rewrite !lookup_replicate_2 by lia.
    + symmetry. apply lookup_ge_None_2. rewrite length_replicate. lia.
  - symmetry. apply lookup_ge_None_2. rewrite length_replicate. lia.
Qed.

(** The object the constructor leaves holds the state [processor_init]. *)
Lemma mem_construct_object_at cfg bo h base (m : list byte) :
  (base + sizeof_processor cfg bo h <= length m)%nat ->
  object_at cfg bo h base <$> mem_construct cfg bo h base m =
  Some (processor_init cfg bo (abi_sizeof_jmp_buf h)).
Proof.
  intros Hb. unfold mem_construct. rewrite decide_True by done.
  cbn [fmap option_fmap option_map]. f_equal.
  assert (NoDup processor_members) as Hnd by compute_done.
  pose proof (construct_members_bytes cfg bo h base m processor_members Hnd
                m eq_refl Hb) as Hbytes.
  cbv zeta in Hbytes.
  assert (forall pm t, pmember_type cfg pm = Some t -> pm <> p_lr ->
            scalar_of cfg bo pm (init_bytes cfg bo h pm) = convert t 0) as Hsc.
  { intros pm t Ht Hne. unfold scalar_of. rewrite Ht. simpl.
    rewrite convert_0.
    assert (init_bytes cfg bo h pm =
              replicate (pmember_size cfg bo h pm) Byte.x00) as ->
      by (by destruct pm).
    rewrite host_combine_zeros. by destruct t. }
  unfold object_at, processor_init.
  rewrite !Hbytes, !decide_True by compute_done.
  rewrite (Hsc p_pc (UX cfg) eq_refl), (Hsc p_node_id u16 eq_refl),
    (Hsc p_hart_id u16 eq_refl), (Hsc p_log u32 eq_refl),
    (Hsc p_badaddr (SX cfg) eq_refl), (Hsc p_time u64 eq_refl),
    (Hsc p_cycle u64 eq_refl), (Hsc p_instret u64 eq_refl),
    (Hsc p_fcsr (UX cfg) eq_refl) by done.
  f_equal.
  - apply chunks_zeros.
  - apply chunks_zeros.
  - apply (scalar_of_host_split cfg bo p_lr (SX cfg)). done.
Qed.

(** * Independence of processor objects, the theorem *)

Lemma member_bytes_agree cfg bo h base pm (m m' : list byte) :
  (forall a, (base <= a < base + sizeof_processor cfg bo h)%nat ->
             m' !! a = m !! a) ->
  member_bytes cfg bo h base pm m' = member_bytes cfg bo h base pm m.
Proof.
  intros Hag. destruct (offsetof_member_is_Some cfg bo h pm) as [o Ho].
  rewrite !(member_bytes_eq _ _ _ _ _ _ _ Ho).
  pose proof (offsetof_member_within _ _ _ _ _ Ho).
  apply list_eq. intros i. rewrite !lookup_slice.
  case_decide; [|done]. apply Hag. lia.
Qed.

(** The state an object holds depends on its own bytes only. *)
Lemma object_at_agree cfg bo h base (m m' : list byte) :
  (forall a, (base <= a < base + sizeof_processor cfg bo h)%nat ->
             m' !! a = m !! a) ->
  object_at cfg bo h base m' = object_at cfg bo h base m.
Proof.
  intros Hag. unfold object_at.
  by rewrite !(member_bytes_agree cfg bo h base _ m m' Hag).
Qed.

(** C8. Two processor objects are separate objects: each occupies its own
    [sizeof(processor)] bytes of memory.  A write through one of them — to
    its [pc], to a view of one of its integer or floating-point registers
    with an index below the register count, to a counter or to any other
    scalar member — is then defined and acts on the state that object
    holds as the member write [mutate] does; it is read back through that
    object and changes no byte of the other object, so that the other
    object holds the same processor state, and every member and every
    register view of it reads as before.  Likewise the constructor, run on
    the storage of the one object, leaves there the state
    [processor_init] and changes nothing of the other object.  This holds
    whatever the two objects hold, for every configuration, byte order and
    ABI. *)
Theorem processor_objects_independent
    (cfg : config) (bo : byte_order) (h : abi) (m : list byte) (b1 b2 : nat)
    (mu : mutation) (mr : member_ref) (z : Z) (off : nat) (t : ctype) :
  (b1 + sizeof_processor cfg bo h <= b2 \/
   b2 + sizeof_processor cfg bo h <= b1)%nat ->
  (b1 + sizeof_processor cfg bo h <= length m)%nat ->
  (b2 + sizeof_processor cfg bo h <= length m)%nat ->
  target cfg mu = Some (mr, z) ->
  place cfg bo h mr = Some (off, t) ->
  (exists m',
     mem_mutate cfg bo h b1 mu m = Some m' /\
     length m' = length m /\
     mutate cfg bo mu (object_at cfg bo h b1 m) =
       Some (object_at cfg bo h b1 m') /\
     mem_read cfg bo h b1 mr m' = Some (convert t z) /\
     (forall a, (b2 <= a < b2 + sizeof_processor cfg bo h)%nat ->
                m' !! a = m !! a) /\
     object_at cfg bo h b2 m' = object_at cfg bo h b2 m /\
     (forall mr2, mem_read cfg bo h b2 mr2 m' = mem_read cfg bo h b2 mr2 m)) /\
  (exists mc,
     mem_construct cfg bo h b1 m = Some mc /\
     length mc = length m /\
     object_at cfg bo h b1 mc = processor_init cfg bo (abi_sizeof_jmp_buf h) /\
     (forall a, (b2 <= a < b2 + sizeof_processor cfg bo h)%nat ->
                mc !! a = m !! a) /\
     object_at cfg bo h b2 mc = object_at cfg bo h b2 m /\
     (forall mr2, mem_read cfg bo h b2 mr2 mc = mem_read cfg bo h b2 mr2 m)).
Proof.
  intros Hsep H1 H2 Ht Hp. split.
  - pose proof (place_within _ _ _ _ _ _ Hp) as Hw.
    assert (length (store bo t (b1 + off) z m) = length m) as Hlen
      by (apply length_store; lia).
    assert (forall a, (b2 <= a < b2 + sizeof_processor cfg bo h)%nat ->
              store bo t (b1 + off) z m !! a = m !! a) as Hfr
      by (intros a Ha; apply store_lookup_other; lia).
    assert (mem_mutate cfg bo h b1 mu m = Some (store bo t (b1 + off) z m))
      as Hmu.
    { unfold mem_mutate, mem_write. rewrite Ht. simpl. rewrite Hp. simpl.
      by rewrite decide_True. }
    pose proof (mem_mutate_object_at cfg bo h b1 mu m H1) as Hsim.
    rewrite Hmu in Hsim.
    exists (store bo t (b1 + off) z m).
    split; [done|]. split; [done|]. split; [by symmetry|].
    split; [|split; [done|split]].
    + unfold mem_read. rewrite Hp. simpl. rewrite Hlen, decide_True by done.
      f_equal. apply load_store; [done|lia].
    + by apply object_at_agree.
    + intros mr2. by apply mem_read_agree.
  - destruct (mem_construct_frame cfg bo h b1 m H1) as (mc & Hc & Hlen & Hfr).
    assert (forall a, (b2 <= a < b2 + sizeof_processor cfg bo h)%nat ->
              mc !! a = m !! a) as Hfr'
      by (intros a Ha; apply Hfr; lia).
    pose proof (mem_construct_object_at cfg bo h b1 m H1) as Hsim.
    rewrite Hc in Hsim.
    exists mc. split; [done|]. split; [done|].
    split; [by apply (inj Some)|]. split; [done|].
    split; [by apply object_at_agree|].
    intros mr2. by apply mem_read_agree.
Qed.

Lemma processor_objects_independent_witness :
  (exists m',
     mem_mutate processor_rv32imafd LITTLE_ENDIAN natural_abi 0
       (write_ireg 5 r.hu 0x1abcd) two_harts = Some m' /\
     length m' = length two_harts /\
     mutate processor_rv32imafd LITTLE_ENDIAN (write_ireg 5 r.hu 0x1abcd)
       (object_at processor_rv32imafd LITTLE_ENDIAN natural_abi 0 two_harts) =
       Some (object_at processor_rv32imafd LITTLE_ENDIAN natural_abi 0 m') /\
     mem_read processor_rv32imafd LITTLE_ENDIAN natural_abi 0 (m_ireg 5 r.hu) m'
       = Some (convert u16 0x1abcd) /\
     (forall a,
        (640 <= a
         < 640 + sizeof_processor processor_rv32imafd LITTLE_ENDIAN natural_abi)%nat ->
        m' !! a = two_harts !! a) /\
     object_at processor_rv32imafd LITTLE_ENDIAN natural_abi 640 m' =
       object_at processor_rv32imafd LITTLE_ENDIAN natural_abi 640 two_harts /\
     (forall mr2,
        mem_read processor_rv32imafd LITTLE_ENDIAN natural_abi 640 mr2 m' =
        mem_read processor_rv32imafd LITTLE_ENDIAN natural_abi 640 mr2 two_harts)) /\
  (exists mc,
     mem_construct processor_rv32imafd LITTLE_ENDIAN natural_abi 0 two_harts
       = Some mc /\
     length mc = length two_harts /\
     object_at processor_rv32imafd LITTLE_ENDIAN natural_abi 0 mc =
       processor_init processor_rv32imafd LITTLE_ENDIAN
         (abi_sizeof_jmp_buf natural_abi) /\
     (forall a,
        (640 <= a
         < 640 + sizeof_processor processor_rv32imafd LITTLE_ENDIAN natural_abi)%nat ->
        mc !! a = two_harts !! a) /\
     object_at processor_rv32imafd LITTLE_ENDIAN natural_abi 640 mc =
       object_at processor_rv32imafd LITTLE_ENDIAN natural_abi 640 two_harts /\
     (forall mr2,
        mem_read processor_rv32imafd LITTLE_ENDIAN natural_abi 640 mr2 mc =
        mem_read processor_rv32imafd LITTLE_ENDIAN natural_abi 640 mr2 two_harts)).
Proof.
  apply (processor_objects_independent processor_rv32imafd LITTLE_ENDIAN
           natural_abi two_harts 0 640 (write_ireg 5 r.hu 0x1abcd)
           (m_ireg 5 r.hu) 0x1abcd 24 u16).
  - vm_compute. lia.
  - vm_compute. lia.
  - vm_compute. lia.
  - reflexivity.
  - reflexivity.
Defined.

(** The memory [two_harts]: each object is 640 bytes; the first reads as
    the constructor left it, the second shows the four writes made through
    it and is otherwise as constructed. *)
Lemma two_harts_reads :
  let rd := mem_read processor_rv32imafd LITTLE_ENDIAN natural_abi in
  sizeof_processor processor_rv32imafd LITTLE_ENDIAN natural_abi = 640%nat /\
  length two_harts = 1280%nat /\
  rd 0%nat (m_scalar p_pc) two_harts = Some 0 /\
  rd 0%nat (m_scalar p_lr) two_harts = Some (-1) /\
  rd 0%nat (m_ireg 5 r.x) two_harts = Some 0 /\
  rd 0%nat (m_freg 3 r.d) two_harts = Some 0 /\
  rd 0%nat (m_scalar p_instret) two_harts = Some 0 /\
  rd 640%nat (m_scalar p_pc) two_harts = Some 0x80000000 /\
  rd 640%nat (m_scalar p_lr) two_harts = Some (-1) /\
  rd 640%nat (m_ireg 5 r.x) two_harts = Some (-7) /\
  rd 640%nat (m_ireg 5 r.bu) two_harts = Some 249 /\
  rd 640%nat (m_ireg 4 r.x) two_harts = Some 0 /\
  rd 640%nat (m_freg 3 r.d) two_harts = Some 0x3ff0000000000000 /\
  rd 640%nat (m_freg 3 r.s) two_harts = Some 0 /\
  rd 640%nat (m_scalar p_instret) two_harts = Some 99 /\
  rd 640%nat (m_ireg 32 r.x) two_harts = None /\
  rd 641%nat (m_scalar p_pc) two_harts = None.
Proof. vm_compute. by repeat split. Qed.

(** The states the two objects of [two_harts] hold: the first the
    constructed state, the second the constructed state after the four
    writes. *)
Lemma two_harts_states :
  object_at processor_rv32imafd LITTLE_ENDIAN natural_abi 0 two_harts =
    processor_init processor_rv32imafd LITTLE_ENDIAN 200 /\
  (p1 ← mutate processor_rv32imafd LITTLE_ENDIAN (assign_pc 0x80000000)
          (processor_init processor_rv32imafd LITTLE_ENDIAN 200);
   p2 ← mutate processor_rv32imafd LITTLE_ENDIAN (write_ireg 5 r.x (-7)) p1;
   p3 ← mutate processor_rv32imafd LITTLE_ENDIAN
          (write_freg 3 r.d 0x3ff0000000000000) p2;
   mutate processor_rv32imafd LITTLE_ENDIAN (assign_instret 99) p3) =
  Some (object_at processor_rv32imafd LITTLE_ENDIAN natural_abi 640 two_harts).
Proof. split; by vm_compute. Qed.
